(** * sarama-cluster: offset ledger, partition consumer state and partition diff

    A shallow embedding of [cluster.go] (offsetInfo, int32Slice) and of the
    partition consumer and registry (partitionConsumer, partitionState,
    partitionMap), with the properties of the specification stated against
    it.

    Conventions of the embedding:
    - [int64] and [int32] values are integers [Z]; the code compares and
      stores them but never does arithmetic on them, so no wrap-around
      appears outside [strconv], where the overflow checks are written out;
    - a Go [string] is a [string] (a sequence of bytes);
    - [map[int64]struct{}] is a finite set of keys, [gset Z], or the nil map;
    - a [*partitionConsumer] is an [option]: [None] is the nil pointer;
    - a run-time panic is the [Panic] outcome of the [outcome] monad;
    - the order in which [range] visits a map is not fixed by Go: it is an
      input of the model, the class [MapOrder]. *)

From Stdlib Require Import ZArith String Ascii List Sorted Lia.
From stdpp Require Import base gmap sets list strings sorting.

Local Open Scope Z_scope.

(** ** Run-time outcomes *)

Inductive panic : Type :=
| NilMapWrite          (* assignment to entry in nil map *)
| NilDereference       (* invalid memory address or nil pointer dereference *)
| IndexOutOfRange      (* index out of range *)
| CloseOfClosedChannel (* close of closed channel *).

(** [Ok a]: the call returns [a].  [Panic p]: the call panics.
    [Parked a]: the call is suspended on a channel receive and returns [a]
    once another goroutine closes the channel. *)
Inductive outcome (A : Type) : Type :=
| Ok (a : A)
| Panic (p : panic)
| Parked (a : A).
Arguments Ok {A} a.
Arguments Panic {A} p.
Arguments Parked {A} a.

Global Instance outcome_ret : MRet outcome := fun A a => Ok a.

Global Instance outcome_bind : MBind outcome := fun A B k m =>
  match m with
  | Ok a => k a
  | Panic p => Panic p
  | Parked a =>
      match k a with
      | Ok b => Parked b
      | other => other
      end
  end.

(** ** Go maps used as sets: [map[int64]struct{}] *)

Module GoMap.

(** [None] is the nil map, [Some s] an allocated map with key set [s]. *)
Definition t : Type := option (gset Z).

(** The order of one [range] loop over the keys. *)
Class MapOrder : Type := {
  range_keys : gset Z → list Z;
  range_keys_perm : ∀ s, range_keys s ≡ₚ elements s
}.

(** [len(m)]; the length of the nil map is 0. *)
Definition len (m : t) : Z :=
  match m with
  | None => 0
  | Some s => Z.of_nat (size s)
  end.

(** The keys [range m] visits, in order; none for the nil map. *)
Definition range `{MapOrder} (m : t) : list Z :=
  match m with
  | None => []
  | Some s => range_keys s
  end.

(** [m[k] = struct{}{}]; panics on the nil map. *)
Definition store (m : t) (k : Z) : outcome t :=
  match m with
  | None => Panic NilMapWrite
  | Some s => Ok (Some ({[k]} ∪ s))
  end.

(** [delete(m, k)]; a no-op on the nil map. *)
Definition delete (m : t) (k : Z) : t :=
  match m with
  | None => None
  | Some s => Some (s ∖ {[k]})
  end.

(** The keys as a set; the nil map has none. *)
Definition keys (m : t) : gset Z :=
  match m with
  | None => ∅
  | Some s => s
  end.

End GoMap.

Export GoMap(MapOrder, range_keys, range_keys_perm).

(** Two iteration orders: ascending keys as [elements] lists them, and the
    reverse. *)
Definition elements_order : MapOrder :=
  {| range_keys := elements; range_keys_perm := fun s => reflexivity _ |}.

Definition reverse_order : MapOrder :=
  {| range_keys := fun s => reverse (elements s);
     range_keys_perm := fun s => reverse_Permutation (elements s) |}.

(** ** The offset ledger: [offsetInfo] *)

Record offsetInfo : Type := mkOffsetInfo {
  Offset : Z;
  PendingOffsets : GoMap.t;
  Metadata : string
}.

Definition set_Offset (i : offsetInfo) (o : Z) : offsetInfo :=
  mkOffsetInfo o (PendingOffsets i) (Metadata i).
Definition set_PendingOffsets (i : offsetInfo) (m : GoMap.t) : offsetInfo :=
  mkOffsetInfo (Offset i) m (Metadata i).
Definition set_Metadata (i : offsetInfo) (s : string) : offsetInfo :=
  mkOffsetInfo (Offset i) (PendingOffsets i) s.

(** [func (i offsetInfo) NextOffset(fallback int64) int64]: the loop returns
    in its first iteration, so the result is the first key [range] visits. *)
Definition NextOffset `{MapOrder} (i : offsetInfo) (fallback : Z) : Z :=
  if -1 <? Offset i then
    if 0 <? GoMap.len (PendingOffsets i) then
      match GoMap.range (PendingOffsets i) with
      | k :: _ => k
      | [] => Offset i
      end
    else Offset i
  else fallback.

(** ** The Go library functions the ledger calls

    [strconv.FormatInt], [strconv.ParseInt] and [strings.Split] belong to
    the Go standard library.  They are embedded here from their Go sources,
    at the arguments the ledger uses: base 10, bit size 64, separator [","]. *)

Module strconv.

Inductive NumError : Type := ErrSyntax | ErrRange.

Definition byte_val (c : ascii) : Z := Z.of_N (N_of_ascii c).
Definition byte_of (z : Z) : ascii := ascii_of_N (Z.to_N z).

Definition maxUint64 : Z := 2 ^ 64 - 1.
Definition uint64 (z : Z) : Z := z mod 2 ^ 64.
Definition int64 (z : Z) : Z := (z + 2 ^ 63) mod 2 ^ 64 - 2 ^ 63.

(** The digit loop of [formatBits] for base 10, filling the buffer from
    its end:
      for us >= 10 { i--; q := us / 10; a[i] = byte(us - q*10 + '0'); us = q }
      i--; a[i] = byte(us + '0')
    [a] is the part of the buffer already written; the buffer holds 65
    bytes and a uint64 has at most 20 digits, so 20 rounds are enough. *)
Fixpoint formatBits_loop (rounds : nat) (us : Z) (a : string) : string :=
  match rounds with
  | O => a
  | S rounds' =>
      if 10 <=? us then
        let q := us / 10 in
        formatBits_loop rounds' q (String (byte_of (us - q * 10 + 48)) a)
      else String (byte_of (us + 48)) a
  end.

(** [formatBits(nil, uint64(i), 10, i < 0, false)]: the magnitude is
    taken in uint64 arithmetic ([u = -u]), the sign is written last. *)
Definition formatBits (u : Z) (neg : bool) : string :=
  let u := if neg then uint64 (- u) else u in
  let a := formatBits_loop 20 u "" in
  if neg then String "-" a else a.

(** [strconv.FormatInt(i, 10)]. *)
Definition FormatInt (i : Z) : string := formatBits (uint64 i) (i <? 0).

(** The value of one digit byte in [ParseUint]:
      case '0' <= d && d <= '9': v = d - '0'
      case 'a' <= d && d <= 'z': v = d - 'a' + 10
      case 'A' <= d && d <= 'Z': v = d - 'A' + 10
      default: syntax error *)
Definition digit_val (d : Z) : option Z :=
  if (48 <=? d) && (d <=? 57) then Some (d - 48)
  else if (97 <=? d) && (d <=? 122) then Some (d - 97 + 10)
  else if (65 <=? d) && (d <=? 90) then Some (d - 65 + 10)
  else None.

(** [cutoff] is the smallest number such that [cutoff * 10 > maxUint64]. *)
Definition cutoff10 : Z := maxUint64 / 10 + 1.

(** The loop of [ParseUint(s, 10, 64)] from the accumulator [n]. *)
Fixpoint ParseUint_loop (s : string) (n : Z) : Z * option NumError :=
  match s with
  | EmptyString => (n, None)
  | String c s' =>
      match digit_val (byte_val c) with
      | None => (0, Some ErrSyntax)
      | Some v =>
          if 10 <=? v then (0, Some ErrSyntax)
          else if cutoff10 <=? n then (maxUint64, Some ErrRange)
          else
            let n := uint64 (n * 10) in
            let n1 := uint64 (n + v) in
            if (n1 <? n) || (maxUint64 <? n1) then (maxUint64, Some ErrRange)
            else ParseUint_loop s' n1
      end
  end.

(** [strconv.ParseUint(s, 10, 64)]. *)
Definition ParseUint (s : string) : Z * option NumError :=
  match s with
  | EmptyString => (0, Some ErrSyntax)
  | _ => ParseUint_loop s 0
  end.

(** [strconv.ParseInt(s, 10, 64)]: an optional sign, then [ParseUint] and
    the range check against [1 << 63]. *)
Definition ParseInt (s : string) : Z * option NumError :=
  match s with
  | EmptyString => (0, Some ErrSyntax)
  | String c rest =>
      let neg := bool_decide (c = "-"%char) in
      let s' := if bool_decide (c = "+"%char) || neg then rest else s in
      let '(un, err) := ParseUint s' in
      match err with
      | Some ErrSyntax => (0, Some ErrSyntax)
      | _ =>
          let cutoff := 2 ^ 63 in
          if negb neg && (cutoff <=? un) then (cutoff - 1, Some ErrRange)
          else if neg && (cutoff <? un) then (- cutoff, Some ErrRange)
          else
            let n := int64 un in
            (if neg then int64 (- n) else n, None)
      end
  end.

End strconv.

Module strings.

(** [strings.Split(s, sep)] for a separator [sep] of one byte: the
    substrings between the separators, in order; one more than there are
    separators, so [Split("", sep)] is the one empty string. *)
Fixpoint Split (s : string) (sep : ascii) : list string :=
  match s with
  | EmptyString => [EmptyString]
  | String c s' =>
      if bool_decide (c = sep) then EmptyString :: Split s' sep
      else
        match Split s' sep with
        | [] => [String c EmptyString]
        | part :: parts => String c part :: parts
        end
  end.

End strings.

(** [func (i offsetInfo) Serialize() offsetInfo]. *)
Definition Serialize `{MapOrder} (i : offsetInfo) : offsetInfo :=
  let meta :=
    foldl (fun meta k => meta +:+ strconv.FormatInt k +:+ ",") ""
          (GoMap.range (PendingOffsets i)) in
  set_Metadata i meta.

(** The loop of [Deserialize] over the parts of the metadata.  The
    assignment [i.PendingOffsets[offset] = struct{}{}] panics when the map
    is nil. *)
Fixpoint Deserialize_loop (parts : list string) (i : offsetInfo)
  : outcome offsetInfo :=
  match parts with
  | [] => Ok i
  | k :: parts' =>
      if bool_decide (k = "") then Deserialize_loop parts' i
      else
        match strconv.ParseInt k with
        | (_, Some _) => Deserialize_loop parts' i
        | (offset, None) =>
            m ← GoMap.store (PendingOffsets i) offset;
            Deserialize_loop parts' (set_PendingOffsets i m)
        end
  end.

(** [func (i offsetInfo) Deserialize() offsetInfo]. *)
Definition Deserialize (i : offsetInfo) : outcome offsetInfo :=
  Deserialize_loop (strings.Split (Metadata i) ",") i.

(** ** The partition diff: [int32Slice.Diff] *)

Module sort.

(** The loop of [sort.Search]:
      for i < j { h := int(uint(i+j) >> 1); if !f(h) { i = h + 1 } else { j = h } }
    Indices are natural numbers: a slice is shorter than [2^63], so
    [uint(i+j) >> 1] is the exact half of [i + j].  Each round shrinks
    [j - i], so [n] rounds are enough for a range of [n] indices. *)
Fixpoint Search_loop (rounds : nat) (f : nat → outcome bool) (i j : nat)
  : outcome nat :=
  match rounds with
  | O => Ok i
  | S rounds' =>
      if (i <? j)%nat then
        let h := ((i + j) / 2)%nat in
        b ← f h;
        if negb b then Search_loop rounds' f (h + 1)%nat j
        else Search_loop rounds' f i h
      else Ok i
  end.

(** [sort.Search(n, f)]. *)
Definition Search (n : nat) (f : nat → outcome bool) : outcome nat :=
  Search_loop n f 0%nat n.

End sort.

(** [o[i]]: panics when [i] is out of range. *)
Definition index (o : list Z) (i : nat) : outcome Z :=
  match o !! i with
  | Some y => Ok y
  | None => Panic IndexOutOfRange
  end.

(** The loop of [Diff] over [p]; [res] is the slice built so far. *)
Fixpoint Diff_loop (p o : list Z) (res : list Z) : outcome (list Z) :=
  match p with
  | [] => Ok res
  | x :: p' =>
      let on := length o in
      n ← sort.Search on (fun i => y ← index o i; Ok (x <=? y));
      hit ← (if (n <? on)%nat then y ← index o n; Ok (bool_decide (y = x))
             else Ok false);
      if (hit : bool) then Diff_loop p' o res
      else Diff_loop p' o (res ++ [x])
  end.

(** [func (p int32Slice) Diff(o int32Slice) (res []int32)]. *)
Definition Diff (p o : list Z) : outcome (list Z) := Diff_loop p o [].

(** ** The partition consumer *)

(** A Go [error]: [None] is nil. *)
Inductive error_value : Type :=
| ErrOffsetOutOfRange
| ErrOther (msg : string).

Global Instance error_value_eq_dec : EqDecision error_value.
Proof. solve_decision. Defined.

Definition error : Type := option error_value.

(** [sarama.PartitionConsumer], as far as the consumer uses it. *)
Class PartitionStream (S : Type) : Type := {
  pcm_Close : S → error * S;
  pcm_SetOffset : S → Z → S
}.

(** [sarama.Consumer]: [ConsumePartition(topic, partition, offset)] returns
    a stream (or nil) and an error, and may change the manager. *)
Class ConsumerManager (M S : Type) : Type := {
  ConsumePartition : M → string → Z → Z → M * (option S * error)
}.

(** A [chan none] that is only ever closed, never sent on. *)
Inductive chan : Type := ChanOpen | ChanClosed.

Record partitionState : Type := mkPartitionState {
  Info : offsetInfo;
  Dirty : bool
}.

(** [partitionState{}]. *)
Definition zero_state : partitionState :=
  mkPartitionState (mkOffsetInfo 0 None "") false.

(** The mutex is left out: the model runs one call at a time. *)
Record partitionConsumer (S : Type) : Type := mkPartitionConsumer {
  pcm : option S;
  state : partitionState;
  closed : bool;
  dying : chan;
  dead : chan
}.
Arguments mkPartitionConsumer {S}.
Arguments pcm {S}.
Arguments state {S}.
Arguments closed {S}.
Arguments dying {S}.
Arguments dead {S}.

Section Consumer.
Context {S : Type} `{PartitionStream S} `{MapOrder}.

Definition set_state (c : partitionConsumer S) (st : partitionState)
  : partitionConsumer S :=
  mkPartitionConsumer (pcm c) st (closed c) (dying c) (dead c).

Definition set_Info (st : partitionState) (i : offsetInfo) : partitionState :=
  mkPartitionState i (Dirty st).

(** [func newPartitionConsumer(manager, topic, partition, info, defaultOffset)]. *)
Definition newPartitionConsumer {M : Type} `{ConsumerManager M S}
    (manager : M) (topic : string) (partition : Z)
    (info : offsetInfo) (defaultOffset : Z)
  : M * (option (partitionConsumer S) * error) :=
  let '(manager, (pcm, err)) :=
    ConsumePartition manager topic partition (NextOffset info defaultOffset) in
  let '(manager, info, (pcm, err)) :=
    if bool_decide (err = Some ErrOffsetOutOfRange) then
      let info := set_Offset info (-1) in
      let '(manager, r) := ConsumePartition manager topic partition defaultOffset in
      (manager, info, r)
    else (manager, info, (pcm, err)) in
  match err with
  | Some e => (manager, (None, Some e))
  | None =>
      (manager,
       (Some (mkPartitionConsumer pcm (mkPartitionState info false)
                                  false ChanOpen ChanOpen),
        None))
  end.

(** [defer close(c.dead)]: what [Loop] does when it returns. *)
Definition Loop_return (c : partitionConsumer S)
  : outcome (partitionConsumer S) :=
  match dead c with
  | ChanClosed => Panic CloseOfClosedChannel
  | ChanOpen =>
      Ok (mkPartitionConsumer (pcm c) (state c) (closed c) (dying c) ChanClosed)
  end.

(** [func (c *partitionConsumer) Close() error].  The receive [<-c.dead]
    returns at once when [dead] is closed; otherwise the call is parked
    until [Loop] returns. *)
Definition Close (h : option (partitionConsumer S))
  : outcome (error * option (partitionConsumer S)) :=
  match h with
  | None => Panic NilDereference
  | Some c =>
      if closed c then Ok (None, Some c)
      else
        match pcm c with
        | None => Panic NilDereference
        | Some p =>
            let '(err, p) := pcm_Close p in
            let c := mkPartitionConsumer (Some p) (state c) true (dying c) (dead c) in
            match dying c with
            | ChanClosed => Panic CloseOfClosedChannel
            | ChanOpen =>
                let c :=
                  mkPartitionConsumer (pcm c) (state c) (closed c) ChanClosed (dead c) in
                match dead c with
                | ChanClosed => Ok (err, Some c)
                | ChanOpen => Parked (err, Some c)
                end
            end
        end
  end.

(** [func (c *partitionConsumer) State() partitionState].  [state] is a
    copy of [c.state], but the copy shares the pending map with the
    consumer: what [Deserialize] stores is stored in the consumer's map
    too, so the consumer is returned next to the snapshot. *)
Definition State (h : option (partitionConsumer S))
  : outcome (partitionState * option (partitionConsumer S)) :=
  match h with
  | None => Ok (zero_state, None)
  | Some c =>
      let state_ := state c in
      if bool_decide (Metadata (Info state_) = "") then
        Ok (set_Info state_ (Serialize (Info state_)), Some c)
      else if GoMap.len (PendingOffsets (Info state_)) =? 0 then
        info ← Deserialize (Info state_);
        Ok (set_Info state_ info,
            Some (set_state c
                    (set_Info (state c)
                       (set_PendingOffsets (Info (state c)) (PendingOffsets info)))))
      else Ok (state_, Some c)
  end.

(** [func (c *partitionConsumer) MarkCommitted(offset int64)]. *)
Definition MarkCommitted (h : option (partitionConsumer S)) (offset : Z)
  : outcome (option (partitionConsumer S)) :=
  match h with
  | None => Ok None
  | Some c =>
      if bool_decide (offset = Offset (Info (state c)))
         || negb (bool_decide (Metadata (Info (state c)) = "")) then
        Ok (Some (set_state c (mkPartitionState (Info (state c)) false)))
      else Ok (Some c)
  end.

(** [func (c *partitionConsumer) AddPendingOffset(offset int64)]. *)
Definition AddPendingOffset (h : option (partitionConsumer S)) (offset : Z)
  : outcome (option (partitionConsumer S)) :=
  match h with
  | None => Panic NilDereference
  | Some c =>
      m ← GoMap.store (PendingOffsets (Info (state c))) offset;
      Ok (Some (set_state c
                  (set_Info (state c) (set_PendingOffsets (Info (state c)) m))))
  end.

(** [func (c *partitionConsumer) SetOffset(offset int64)]. *)
Definition SetOffset (h : option (partitionConsumer S)) (offset : Z)
  : outcome (option (partitionConsumer S)) :=
  match h with
  | None => Panic NilDereference
  | Some c =>
      match pcm c with
      | None => Panic NilDereference
      | Some p =>
          Ok (Some (mkPartitionConsumer (Some (pcm_SetOffset p offset))
                      (state c) (closed c) (dying c) (dead c)))
      end
  end.

(** [func (c *partitionConsumer) RemovePendingOffset(offset int64)]. *)
Definition RemovePendingOffset (h : option (partitionConsumer S)) (offset : Z)
  : outcome (option (partitionConsumer S)) :=
  match h with
  | None => Panic NilDereference
  | Some c =>
      Ok (Some (set_state c
                  (set_Info (state c)
                     (set_PendingOffsets (Info (state c))
                        (GoMap.delete (PendingOffsets (Info (state c))) offset)))))
  end.

(** [func (c *partitionConsumer) MarkOffset(offset int64, metadata string)]. *)
Definition MarkOffset (h : option (partitionConsumer S))
    (offset : Z) (metadata : string)
  : outcome (option (partitionConsumer S)) :=
  match h with
  | None => Ok None
  | Some c =>
      if Offset (Info (state c)) <? offset then
        let info := set_Offset (Info (state c)) offset in
        let info :=
          if negb (bool_decide (metadata = "")) then set_Metadata info metadata
          else info in
        Ok (Some (set_state c (mkPartitionState info true)))
      else Ok (Some c)
  end.

End Consumer.

(** A stream for examples: it records what was done to it and returns
    [close_result] from [Close]. *)
Record fake_stream : Type := mkFakeStream {
  close_result : error;
  close_calls : nat;
  cursor : Z
}.

Global Instance fake_stream_ops : PartitionStream fake_stream := {
  pcm_Close s := (close_result s, mkFakeStream (close_result s) (1 + close_calls s) (cursor s));
  pcm_SetOffset s o := mkFakeStream (close_result s) (close_calls s) o
}.

(** A manager for examples: it answers the calls of [ConsumePartition] with
    the replies it holds, in order, and with an error once they run out. *)
Global Instance fake_manager_ops
  : ConsumerManager (list (option fake_stream * error)) fake_stream := {
  ConsumePartition m topic partition offset :=
    match m with
    | r :: m' => (m', r)
    | [] => ([], (None, Some (ErrOther "no reply")))
    end
}.

(** ** The sort interface of [int32Slice] *)

(** [func (p int32Slice) Len() int]. *)
Definition Len (p : list Z) : nat := length p.

(** [func (p int32Slice) Less(i, j int) bool]. *)
Definition Less (p : list Z) (i j : nat) : outcome bool :=
  pi ← index p i; pj ← index p j; Ok (pi <? pj).

(** [func (p int32Slice) Swap(i, j int)]: [p[i], p[j] = p[j], p[i]] reads
    both elements, then writes both. *)
Definition Swap (p : list Z) (i j : nat) : outcome (list Z) :=
  pj ← index p j; pi ← index p i; Ok (<[j := pi]> (<[i := pj]> p)).

(** [sort.Sort(int32Slice(p))] belongs to the Go standard library: it puts
    [p] in the order [Less] gives, here ascending.  The ascending
    permutation of a slice of integers is unique, so the result does not
    depend on the algorithm; it is computed by merge sort. *)
Definition sort_Sort (p : list Z) : list Z := merge_sort Z.le p.

(** ** The partition registry: [partitionMap] *)

(** [topicPartition]: the topic name and the partition id. *)
Abbreviation topicPartition := (string * Z)%type.

(** The order of one [range] loop over a map with keys [K]. *)
Class EntryOrder (K V : Type) `{Countable K} : Type := {
  range_entries : gmap K V → list (K * V);
  range_entries_perm : ∀ m, range_entries m ≡ₚ map_to_list m
}.

Definition map_to_list_order (K V : Type) `{Countable K} : EntryOrder K V :=
  {| range_entries := map_to_list; range_entries_perm := fun m => reflexivity _ |}.

Definition reverse_entry_order (K V : Type) `{Countable K} : EntryOrder K V :=
  {| range_entries := fun m => reverse (map_to_list m);
     range_entries_perm := fun m => reverse_Permutation (map_to_list m) |}.

Module partitionMap.
Section Registry.
Context {S : Type} `{PartitionStream S} `{MapOrder}.
Context `{!EntryOrder topicPartition (option (partitionConsumer S))}.
Context `{!EntryOrder string (list Z)}.

(** [partitionMap.data].  The values are pointers to consumers, [None] the
    nil pointer.  The registry owns its consumers, each stored under one
    key, so a key stands for the address of its consumer: what a call
    changes in a consumer through its pointer is an update of the entry.
    The lock is left out: the model runs one call at a time. *)
Abbreviation t := (gmap topicPartition (option (partitionConsumer S))).

(** [func newPartitionMap() *partitionMap]. *)
Definition newPartitionMap : t := ∅.

(** [func (m *partitionMap) Fetch(topic, partition) *partitionConsumer]:
    a missing key gives the zero value, nil. *)
Definition Fetch (m : t) (topic : string) (partition : Z)
  : option (partitionConsumer S) :=
  match m !! (topic, partition) with
  | Some pc => pc
  | None => None
  end.

(** [func (m *partitionMap) Store(topic, partition, pc)]. *)
Definition Store (m : t) (topic : string) (partition : Z)
    (pc : option (partitionConsumer S)) : t :=
  <[(topic, partition) := pc]> m.

(** The loop of [HasDirty] over the entries [range] visits; [pc.State()]
    may store into the pending map of the consumer [pc] points to. *)
Fixpoint HasDirty_loop
    (entries : list (topicPartition * option (partitionConsumer S))) (m : t)
  : outcome (bool * t) :=
  match entries with
  | [] => Ok (false, m)
  | (tp, pc) :: entries' =>
      '(state_, pc) ← State pc;
      let m := <[tp := pc]> m in
      if Dirty state_ then Ok (true, m) else HasDirty_loop entries' m
  end.

(** [func (m *partitionMap) HasDirty() bool]. *)
Definition HasDirty (m : t) : outcome (bool * t) :=
  HasDirty_loop (range_entries m) m.

(** The loop of [Snapshot]. *)
Fixpoint Snapshot_loop
    (entries : list (topicPartition * option (partitionConsumer S))) (m : t)
    (snap : gmap topicPartition partitionState)
  : outcome (gmap topicPartition partitionState * t) :=
  match entries with
  | [] => Ok (snap, m)
  | (tp, pc) :: entries' =>
      '(state_, pc) ← State pc;
      Snapshot_loop entries' (<[tp := pc]> m) (<[tp := state_]> snap)
  end.

(** [func (m *partitionMap) Snapshot() map[topicPartition]partitionState]. *)
Definition Snapshot (m : t)
  : outcome (gmap topicPartition partitionState * t) :=
  Snapshot_loop (range_entries m) m ∅.

(** [func (m *partitionMap) Clear()]: every key [range] visits is deleted. *)
Definition Clear (m : t) : t :=
  foldl (fun m tp => delete tp m) m (range_entries m).*1.

(** The first loop of [Info]:
      info[tp.Topic] = append(info[tp.Topic], tp.Partition)
    where a missing topic reads as the nil slice. *)
Definition Info_collect (keys : list topicPartition) : gmap string (list Z) :=
  foldl (fun info tp => <[tp.1 := default [] (info !! tp.1) ++ [tp.2]]> info)
        ∅ keys.

(** [func (m *partitionMap) Info() map[string][]int32]: the second loop
    sorts the slice of every topic in place. *)
Definition Info (m : t) : gmap string (list Z) :=
  let info := Info_collect (range_entries m).*1 in
  foldl (fun info topic => <[topic := sort_Sort (default [] (info !! topic))]> info)
        info (range_entries info).*1.

End Registry.
End partitionMap.

(** ** Notions the properties are stated with *)

Global Instance NumError_eq_dec : EqDecision strconv.NumError.
Proof. solve_decision. Defined.

(** [ParseInt] accepts the token. *)
Definition well_formed (k : string) : Prop := (strconv.ParseInt k).2 = None.

Global Instance well_formed_dec (k : string) : Decision (well_formed k).
Proof. unfold well_formed. apply _. Defined.

(** No byte of [s] is the separator. *)
Fixpoint no_sep (sep : ascii) (s : string) : Prop :=
  match s with
  | EmptyString => True
  | String c s' => c ≠ sep ∧ no_sep sep s'
  end.

(** The offsets of [l] in decimal, each followed by one [","]. *)
Definition render (l : list Z) : string :=
  foldr (fun k r => strconv.FormatInt k +:+ "," +:+ r) "" l.

(** The number a string of decimal digits denotes, most significant digit
    first; [None] when the string is empty or has another byte. *)
Fixpoint decimal_value_from (s : string) (n : Z) : option Z :=
  match s with
  | EmptyString => Some n
  | String c s' =>
      let d := strconv.byte_val c - 48 in
      if (0 <=? d) && (d <=? 9) then decimal_value_from s' (n * 10 + d)
      else None
  end.

Definition decimal_value (s : string) : option Z :=
  match s with
  | EmptyString => None
  | _ => decimal_value_from s 0
  end.

(** A ledger as it comes back from the commit store: an allocated, empty
    pending map next to the metadata. *)
Definition fresh_ledger (offset : Z) (metadata : string) : offsetInfo :=
  mkOffsetInfo offset (Some ∅) metadata.

(** An ascending sequence without duplicates. *)
Definition ascending (l : list Z) : Prop := StronglySorted Z.lt l.

(** [n] is the lower bound of [x] in [o]: below index [n] every element is
    less than [x], from [n] on none is. *)
Definition lower_bound (o : list Z) (x : Z) (n : nat) : Prop :=
  (n ≤ length o)%nat ∧
  (∀ k y, (k < n)%nat → o !! k = Some y → y < x) ∧
  (∀ k y, (n ≤ k)%nat → o !! k = Some y → x <= y).

(** [MarkOffset] called with each mark of [marks], in order. *)
Fixpoint MarkOffset_all {S : Type} (h : option (partitionConsumer S))
    (marks : list (Z * string)) : outcome (option (partitionConsumer S)) :=
  match marks with
  | [] => Ok h
  | (offset, metadata) :: marks' =>
      h' ← MarkOffset h offset metadata;
      MarkOffset_all h' marks'
  end.

(** One call on a consumer that returns (or, for [Close], is parked), and
    the return of the forwarding loop; each [State] call may range over the
    map in an order of its own. *)
Inductive call_step {S : Type} `{PartitionStream S}
  : partitionConsumer S → partitionConsumer S → Prop :=
| step_State (order : MapOrder) c st c' :
    @State S order (Some c) = Ok (st, Some c') → call_step c c'
| step_MarkOffset c offset metadata c' :
    MarkOffset (Some c) offset metadata = Ok (Some c') → call_step c c'
| step_MarkCommitted c offset c' :
    MarkCommitted (Some c) offset = Ok (Some c') → call_step c c'
| step_AddPendingOffset c offset c' :
    AddPendingOffset (Some c) offset = Ok (Some c') → call_step c c'
| step_RemovePendingOffset c offset c' :
    RemovePendingOffset (Some c) offset = Ok (Some c') → call_step c c'
| step_SetOffset c offset c' :
    SetOffset (Some c) offset = Ok (Some c') → call_step c c'
| step_Close c e c' :
    Close (Some c) = Ok (e, Some c') ∨ Close (Some c) = Parked (e, Some c') →
    call_step c c'
| step_Loop_return c c' :
    Loop_return c = Ok c' → call_step c c'.

(** The consumer has a stream, and [dying] is open as long as the consumer
    is not closed. *)
Definition closable {S : Type} (c : partitionConsumer S) : Prop :=
  pcm c ≠ None ∧ (closed c = false → dying c = ChanOpen).

(** [st] is a snapshot of what [pc] points to: the zero state for nil,
    else the dirty flag and the confirmed offset of the consumer and at
    least its pending offsets. *)
Definition snapshot_of {S : Type} (pc : option (partitionConsumer S))
    (st : partitionState) : Prop :=
  match pc with
  | None => st = zero_state
  | Some c =>
      Dirty st = Dirty (state c) ∧
      Offset (Info st) = Offset (Info (state c)) ∧
      GoMap.keys (PendingOffsets (Info (state c)))
        ⊆ GoMap.keys (PendingOffsets (Info st))
  end.

(** The pending map of what [pc] points to is allocated (nothing is asked
    of the nil pointer). *)
Definition allocated {S : Type} (pc : option (partitionConsumer S)) : Prop :=
  ∀ c, pc = Some c → PendingOffsets (Info (state c)) ≠ None.

(** The partition ids of the keys with the given topic, in the order of
    the keys. *)
Definition partitions_of (topic : string) (keys : list topicPartition)
  : list Z :=
  (filter (fun tp : topicPartition => tp.1 = topic) keys).*2.

(** A map entry for a slice that was appended to at least once. *)
Definition some_nonempty (l : list Z) : option (list Z) :=
  match l with
  | [] => None
  | _ => Some l
  end.

(** * Properties *)

(** ** NextOffset *)

Lemma range_keys_elem_of `{MapOrder} (s : gset Z) (k : Z) :
  k ∈ range_keys s ↔ k ∈ s.
Proof. rewrite (range_keys_perm s). apply elem_of_elements. Qed.

Lemma range_keys_nil `{MapOrder} (s : gset Z) :
  range_keys s = [] ↔ s = ∅.
Proof.
  split.
  - intros E. apply set_eq. intros k.
    rewrite <- range_keys_elem_of, E. set_solver.
  - intros ->. apply Permutation_nil_r.
    rewrite range_keys_perm, elements_empty. reflexivity.
Qed.

Lemma len_pos_keys (m : GoMap.t) :
  (0 <? GoMap.len m) = negb (bool_decide (GoMap.keys m = ∅)).
Proof.
  destruct m as [s|]; simpl.
  - case_bool_decide as E.
    + subst s. rewrite size_empty. reflexivity.
    + apply Z.ltb_lt.
      assert (size s ≠ 0%nat); [|lia].
      apply size_non_empty_iff. intros E'. apply E. now apply leibniz_equiv.
  - rewrite bool_decide_eq_true_2; reflexivity.
Qed.

(** [range] over a non-empty map starts with one of its keys. *)
Lemma range_head_pending `{MapOrder} (m : GoMap.t) :
  GoMap.keys m ≠ ∅ →
  ∃ k ks, GoMap.range m = k :: ks ∧ k ∈ GoMap.keys m.
Proof.
  intros Hne. destruct m as [s|]; simpl in *; [|congruence].
  destruct (range_keys s) as [|k ks] eqn:E.
  - apply range_keys_nil in E. congruence.
  - exists k, ks. split; [reflexivity|].
    apply range_keys_elem_of. rewrite E. left.
Qed.

Lemma NextOffset_no_pending `{MapOrder} (i : offsetInfo) (f : Z) :
  -1 < Offset i → GoMap.keys (PendingOffsets i) = ∅ →
  NextOffset i f = Offset i.
Proof.
  intros Hoff He. unfold NextOffset.
  rewrite (proj2 (Z.ltb_lt _ _) Hoff), len_pos_keys.
  rewrite bool_decide_eq_true_2 by exact He. reflexivity.
Qed.

Lemma NextOffset_unconfirmed `{MapOrder} (i : offsetInfo) (f : Z) :
  Offset i <= -1 → NextOffset i f = f.
Proof.
  intros Hoff. unfold NextOffset.
  rewrite (proj2 (Z.ltb_ge _ _) Hoff). reflexivity.
Qed.

(** C1, as amended: for every ledger whose confirmed offset is greater than
    -1 and whose pending set is non-empty, [NextOffset f] is a member of the
    pending set, for every fallback [f] and every iteration order. *)
Theorem NextOffset_member_of_pending `{MapOrder} (i : offsetInfo) (f : Z) :
  -1 < Offset i →
  GoMap.keys (PendingOffsets i) ≠ ∅ →
  NextOffset i f ∈ GoMap.keys (PendingOffsets i).
Proof.
  intros Hoff Hne. unfold NextOffset.
  rewrite (proj2 (Z.ltb_lt _ _) Hoff), len_pos_keys.
  rewrite bool_decide_eq_false_2 by exact Hne. simpl.
  destruct (range_head_pending _ Hne) as (k & ks & E & Hk).
  rewrite E. exact Hk.
Qed.

Lemma NextOffset_member_of_pending_witness :
  let i := mkOffsetInfo 2 (Some {[5; 3; 9]}) "" in
  -1 < Offset i ∧ GoMap.keys (PendingOffsets i) ≠ ∅ ∧
  @NextOffset reverse_order i 0 ∈ GoMap.keys (PendingOffsets i).
Proof.
  intros i.
  assert (H1 : -1 < Offset i) by (simpl; lia).
  assert (H2 : GoMap.keys (PendingOffsets i) ≠ ∅).
  { intros E. apply (f_equal (fun s : gset Z => bool_decide (5 ∈ s))) in E.
    vm_compute in E. discriminate E. }
  exact (conj H1 (conj H2
    (@NextOffset_member_of_pending reverse_order i 0 H1 H2))).
Defined.

(** C1 as the specification words it fails: a ledger without a confirmed
    offset returns the fallback, whatever is pending. *)
Lemma NextOffset_fallback_outside_pending :
  ¬ (∀ (order : MapOrder) (i : offsetInfo) (f : Z),
       GoMap.keys (PendingOffsets i) ≠ ∅ →
       @NextOffset order i f ∈ GoMap.keys (PendingOffsets i)).
Proof.
  intros Hall.
  specialize (Hall elements_order (mkOffsetInfo (-1) (Some {[5]}) "") 0).
  simpl in Hall.
  assert (Hne : ({[5]} : gset Z) ≠ ∅) by set_solver.
  specialize (Hall Hne).
  change (0 ∈ ({[5]} : gset Z)) in Hall.
  apply elem_of_singleton in Hall. discriminate Hall.
Qed.

(** C2: the selection rule of [NextOffset].  With a confirmed offset
    greater than -1 the result is a pending offset when there is one and the
    confirmed offset otherwise; with confirmed offset -1 it is the
    fallback.  The two special cases of the specification follow. *)
Theorem NextOffset_selection_rule `{MapOrder} (i : offsetInfo) (f : Z) :
  (-1 < Offset i →
     (GoMap.keys (PendingOffsets i) ≠ ∅ →
        NextOffset i f ∈ GoMap.keys (PendingOffsets i)) ∧
     (GoMap.keys (PendingOffsets i) = ∅ → NextOffset i f = Offset i)) ∧
  (Offset i = -1 → NextOffset i f = f) ∧
  (Offset i = -1 → GoMap.keys (PendingOffsets i) = ∅ → NextOffset i f = f) ∧
  (0 <= Offset i → GoMap.keys (PendingOffsets i) = ∅ →
     ∀ f', NextOffset i f' = Offset i).
Proof.
  split; [intros Hoff; split | split; [|split]].
  - intros Hne. unfold NextOffset.
    rewrite (proj2 (Z.ltb_lt _ _) Hoff), len_pos_keys.
    rewrite bool_decide_eq_false_2 by exact Hne. simpl.
    destruct (range_head_pending _ Hne) as (k & ks & -> & Hk). exact Hk.
  - intros He. now apply NextOffset_no_pending.
  - intros E. apply NextOffset_unconfirmed. lia.
  - intros E _. apply NextOffset_unconfirmed. lia.
  - intros Hoff He f'. apply NextOffset_no_pending; [lia | exact He].
Qed.

Lemma NextOffset_selection_rule_witness :
  @NextOffset elements_order (mkOffsetInfo (-1) (Some ∅) "") 7 = 7 ∧
  @NextOffset elements_order (mkOffsetInfo 4 None "") 7 = 4.
Proof.
  split.
  - apply (proj1 (proj2
      (@NextOffset_selection_rule elements_order (mkOffsetInfo (-1) (Some ∅) "") 7))).
    reflexivity.
  - apply (proj2 (proj2 (proj2
      (@NextOffset_selection_rule elements_order (mkOffsetInfo 4 None "") 0)))).
    + simpl; lia.
    + reflexivity.
Defined.

(** ** MarkOffset and MarkCommitted *)

(** C6: [MarkOffset(offset, metadata)] on a consumer whose confirmed offset
    is below [offset] sets the confirmed offset to [offset], takes
    [metadata] when it is not empty, sets dirty, and changes nothing else;
    with a lower or equal [offset] the consumer is left as it is. *)
Theorem MarkOffset_advances_iff_greater {S : Type}
    (c : partitionConsumer S) (offset : Z) (metadata : string) :
  (Offset (Info (state c)) < offset →
     ∃ c', MarkOffset (Some c) offset metadata = Ok (Some c') ∧
           Offset (Info (state c')) = offset ∧
           Metadata (Info (state c')) =
             (if bool_decide (metadata = "") then Metadata (Info (state c))
              else metadata) ∧
           Dirty (state c') = true ∧
           PendingOffsets (Info (state c')) = PendingOffsets (Info (state c)) ∧
           pcm c' = pcm c ∧ closed c' = closed c ∧
           dying c' = dying c ∧ dead c' = dead c) ∧
  (offset <= Offset (Info (state c)) →
     MarkOffset (Some c) offset metadata = Ok (Some c)).
Proof.
  split; intros Hcmp; unfold MarkOffset.
  - rewrite (proj2 (Z.ltb_lt _ _) Hcmp).
    eexists; split; [reflexivity|].
    simpl. case_bool_decide; simpl; repeat split; reflexivity.
  - rewrite (proj2 (Z.ltb_ge _ _) Hcmp). reflexivity.
Qed.

Lemma MarkOffset_advances_iff_greater_witness :
  let c := mkPartitionConsumer (Some (mkFakeStream None 0 0))
             (mkPartitionState (mkOffsetInfo 5 (Some ∅) "9,") false)
             false ChanOpen ChanOpen in
  MarkOffset (Some c) 3 "" = Ok (Some c) ∧
  ∃ c', MarkOffset (Some c) 8 "" = Ok (Some c') ∧
        Offset (Info (state c')) = 8 ∧ Metadata (Info (state c')) = "9,".
Proof.
  intros c. split.
  - apply (proj2 (MarkOffset_advances_iff_greater c 3 "")). simpl. lia.
  - destruct (proj1 (MarkOffset_advances_iff_greater c 8 ""))
      as (c' & E & Ho & Hm & _).
    + simpl. lia.
    + exists c'. split; [exact E|]. split; [exact Ho | exact Hm].
Defined.

(** C7: [MarkCommitted(offset)] clears dirty when [offset] is the confirmed
    offset or the metadata is not empty, and then changes nothing but
    dirty; in every other case the consumer is left as it is. *)
Theorem MarkCommitted_clears_dirty_iff {S : Type}
    (c : partitionConsumer S) (offset : Z) :
  (offset = Offset (Info (state c)) ∨ Metadata (Info (state c)) ≠ "" →
     MarkCommitted (Some c) offset =
       Ok (Some (mkPartitionConsumer (pcm c)
                   (mkPartitionState (Info (state c)) false)
                   (closed c) (dying c) (dead c)))) ∧
  (offset ≠ Offset (Info (state c)) ∧ Metadata (Info (state c)) = "" →
     MarkCommitted (Some c) offset = Ok (Some c)).
Proof.
  split; unfold MarkCommitted.
  - intros [E | E].
    + rewrite bool_decide_eq_true_2 by exact E. reflexivity.
    + rewrite (bool_decide_eq_false_2 _ E), orb_true_r. reflexivity.
  - intros [E1 E2].
    rewrite (bool_decide_eq_false_2 _ E1), (bool_decide_eq_true_2 _ E2).
    reflexivity.
Qed.

Lemma MarkCommitted_clears_dirty_iff_witness :
  let c := mkPartitionConsumer (Some (mkFakeStream None 0 0))
             (mkPartitionState (mkOffsetInfo 5 (Some ∅) "") true)
             false ChanOpen ChanOpen in
  Dirty (state c) = true ∧
  MarkCommitted (Some c) 4 = Ok (Some c) ∧
  MarkCommitted (Some c) 5 =
    Ok (Some (mkPartitionConsumer (pcm c)
                (mkPartitionState (Info (state c)) false)
                (closed c) (dying c) (dead c))).
Proof.
  intros c. split; [reflexivity|]. split.
  - apply (proj2 (MarkCommitted_clears_dirty_iff c 4)).
    split; [simpl; lia | reflexivity].
  - apply (proj1 (MarkCommitted_clears_dirty_iff c 5)).
    left. reflexivity.
Defined.

(** ** Close *)

Lemma Close_closed {S : Type} `{PartitionStream S} (c : partitionConsumer S) :
  closed c = true → Close (Some c) = Ok (None, Some c).
Proof. intros E. unfold Close. rewrite E. reflexivity. Qed.

Lemma Close_sets_closed {S : Type} `{PartitionStream S}
    (c c' : partitionConsumer S) (e : error) :
  Close (Some c) = Ok (e, Some c') ∨ Close (Some c) = Parked (e, Some c') →
  closed c' = true.
Proof.
  unfold Close. destruct (closed c) eqn:Ec.
  - intros [E | E]; [|discriminate E]. injection E as _ <-. exact Ec.
  - destruct (pcm c) as [p|]; [|intros [E | E]; discriminate E].
    destruct (pcm_Close p) as [err p']. simpl.
    destruct (dying c); [|intros [E | E]; discriminate E].
    destruct (dead c); intros [E | E]; try discriminate E;
      injection E as _ <-; reflexivity.
Qed.

(** C3, as amended: once a call of [Close] has returned (at once, or after
    it was parked until the loop had stopped), every later call returns nil
    whatever the first call returned, leaves the consumer as it is (the
    stream is not closed again) and is not parked. *)
Theorem Close_again_returns_nil {S : Type} `{PartitionStream S}
    (c c' : partitionConsumer S) (e : error) :
  Close (Some c) = Ok (e, Some c') ∨ Close (Some c) = Parked (e, Some c') →
  ∀ n : nat,
    Nat.iter n (fun r => r' ← r; Close (snd r')) (Close (Some c'))
    = Ok (None, Some c').
Proof.
  intros Hfirst n.
  pose proof (Close_closed c' (Close_sets_closed c c' e Hfirst)) as Hc.
  induction n as [|n IH].
  - exact Hc.
  - rewrite Nat.iter_succ, IH. exact Hc.
Qed.

Lemma Close_again_returns_nil_witness :
  let c := mkPartitionConsumer (Some (mkFakeStream (Some (ErrOther "broken pipe")) 0 0))
             zero_state false ChanOpen ChanClosed in
  let c' := mkPartitionConsumer (Some (mkFakeStream (Some (ErrOther "broken pipe")) 1 0))
             zero_state true ChanClosed ChanClosed in
  (Close (Some c) = Ok (Some (ErrOther "broken pipe"), Some c') ∨
   Close (Some c) = Parked (Some (ErrOther "broken pipe"), Some c')) ∧
  Nat.iter 2 (fun r => r' ← r; Close (snd r')) (Close (Some c'))
  = Ok (None, Some c').
Proof.
  intros c c'.
  assert (Hfirst : Close (Some c) = Ok (Some (ErrOther "broken pipe"), Some c') ∨
                   Close (Some c) = Parked (Some (ErrOther "broken pipe"), Some c'))
    by (left; reflexivity).
  exact (conj Hfirst (Close_again_returns_nil c c' _ Hfirst 2%nat)).
Defined.

(** C3 as the specification words it fails: the loop has stopped because
    the stream ended, the first [Close] returns the error of the stream, and
    the second returns nil. *)
Lemma Close_again_drops_first_error :
  ¬ (∀ (c c' : partitionConsumer fake_stream) (e : error),
       Close (Some c) = Ok (e, Some c') →
       ∃ c'', Close (Some c') = Ok (e, c'')).
Proof.
  intros Hall.
  destruct (Hall
    (mkPartitionConsumer (Some (mkFakeStream (Some (ErrOther "broken pipe")) 0 0))
       zero_state false ChanOpen ChanClosed)
    (mkPartitionConsumer (Some (mkFakeStream (Some (ErrOther "broken pipe")) 1 0))
       zero_state true ChanClosed ChanClosed)
    (Some (ErrOther "broken pipe")) eq_refl) as [c'' E].
  discriminate E.
Qed.

(** ** Calls on the nil consumer *)

(** [State], [MarkOffset] and [MarkCommitted] test for the nil consumer. *)
Lemma guarded_accessors_nil_safe {S : Type} `{MapOrder}
    (offset : Z) (metadata : string) :
  State (S:=S) None = Ok (zero_state, None) ∧
  MarkOffset (S:=S) None offset metadata = Ok None ∧
  MarkCommitted (S:=S) None offset = Ok None.
Proof. repeat split. Qed.

(** C4 fails on the code: [AddPendingOffset], [RemovePendingOffset] and
    [SetOffset] read a field of the nil consumer and panic. *)
Theorem unguarded_accessors_nil_panic {S : Type} `{PartitionStream S}
    (offset : Z) :
  AddPendingOffset (S:=S) None offset = Panic NilDereference ∧
  RemovePendingOffset (S:=S) None offset = Panic NilDereference ∧
  SetOffset (S:=S) None offset = Panic NilDereference.
Proof. repeat split. Qed.

(** ** Decimal rendering and parsing *)

Section strconv_facts.
Import strconv.

Lemma byte_val_of (z : Z) : 0 <= z < 256 → byte_val (byte_of z) = z.
Proof.
  intros Hz. unfold byte_val, byte_of.
  rewrite N_ascii_embedding by lia. lia.
Qed.

Lemma byte_of_digit_neq (d : Z) (c : ascii) :
  0 <= d < 10 → byte_val c < 48 → byte_of (d + 48) ≠ c.
Proof.
  intros Hd Hc E. apply (f_equal byte_val) in E.
  rewrite byte_val_of in E by lia. lia.
Qed.

Lemma digit_val_digit (d : Z) :
  0 <= d < 10 → digit_val (byte_val (byte_of (d + 48))) = Some d.
Proof.
  intros Hd. rewrite byte_val_of by lia. unfold digit_val.
  replace (48 <=? d + 48) with true by (symmetry; apply Z.leb_le; lia).
  replace (d + 48 <=? 57) with true by (symmetry; apply Z.leb_le; lia).
  simpl. f_equal. lia.
Qed.

Lemma uint64_small (z : Z) : 0 <= z <= maxUint64 → uint64 z = z.
Proof. unfold uint64, maxUint64. intros Hz. apply Z.mod_small. lia. Qed.

(** One round of the parsing loop on a digit that does not overflow. *)
Lemma ParseUint_loop_digit (d n : Z) (s : string) :
  0 <= d < 10 → 0 <= n → n * 10 + d <= maxUint64 →
  ParseUint_loop (String (byte_of (d + 48)) s) n = ParseUint_loop s (n * 10 + d).
Proof.
  intros Hd Hn Hmax. cbn [ParseUint_loop].
  rewrite digit_val_digit by exact Hd.
  replace (10 <=? d) with false by (symmetry; apply Z.leb_gt; lia).
  assert (Hcut : n < cutoff10).
  { unfold cutoff10, maxUint64 in *.
    change ((2 ^ 64 - 1) / 10 + 1) with 1844674407370955162.
    change (2 ^ 64 - 1) with 18446744073709551615 in Hmax. lia. }
  replace (cutoff10 <=? n) with false by (symmetry; apply Z.leb_gt; lia).
  rewrite (uint64_small (n * 10)) by lia.
  rewrite (uint64_small (n * 10 + d)) by lia.
  replace (n * 10 + d <? n * 10) with false by (symmetry; apply Z.ltb_ge; lia).
  replace (maxUint64 <? n * 10 + d) with false by (symmetry; apply Z.ltb_ge; lia).
  reflexivity.
Qed.

(** Parsing the digits [formatBits_loop] writes gives back the number. *)
Lemma ParseUint_loop_formatBits_loop (rounds : nat) :
  ∀ (us : Z) (a : string),
    0 <= us <= maxUint64 → us < 10 ^ Z.of_nat rounds →
    ParseUint_loop (formatBits_loop rounds us a) 0 = ParseUint_loop a us.
Proof.
  induction rounds as [|r IH]; intros us a Hus Hlt.
  - simpl in *. replace us with 0 by lia. reflexivity.
  - cbn [formatBits_loop]. destruct (10 <=? us) eqn:E.
    + apply Z.leb_le in E.
      assert (Hq : 0 <= us / 10) by (apply Z.div_pos; lia).
      assert (Hdm : us = 10 * (us / 10) + us mod 10) by (apply Z.div_mod; lia).
      assert (Hm : 0 <= us mod 10 < 10) by (apply Z.mod_pos_bound; lia).
      rewrite IH.
      * rewrite ParseUint_loop_digit by lia. f_equal. lia.
      * lia.
      * rewrite Nat2Z.inj_succ, Z.pow_succ_r in Hlt by lia. lia.
    + apply Z.leb_gt in E.
      rewrite ParseUint_loop_digit by lia. f_equal.
Qed.

(** The first byte [formatBits_loop] writes is a digit. *)
Lemma formatBits_loop_head (rounds : nat) :
  ∀ (us : Z) (a : string),
    0 <= us →
    ∃ d rest, 0 <= d < 10 ∧
      formatBits_loop (S rounds) us a = String (byte_of (d + 48)) rest.
Proof.
  induction rounds as [|r IH]; intros us a Hus.
  - cbn [formatBits_loop]. destruct (10 <=? us) eqn:E.
    + exists (us - us / 10 * 10), a. split; [|reflexivity].
      pose proof (Z.div_mod us 10). pose proof (Z.mod_pos_bound us 10). lia.
    + apply Z.leb_gt in E. exists us, a. split; [lia | reflexivity].
  - change (formatBits_loop (S (S r)) us a) with
      (if 10 <=? us
       then formatBits_loop (S r) (us / 10)
              (String (byte_of (us - us / 10 * 10 + 48)) a)
       else String (byte_of (us + 48)) a).
    destruct (10 <=? us) eqn:E.
    + apply IH. apply Z.div_pos; lia.
    + apply Z.leb_gt in E. exists us, a. split; [lia | reflexivity].
Qed.

Lemma ParseUint_formatBits_loop (us : Z) :
  0 <= us <= maxUint64 →
  ParseUint (formatBits_loop 20 us "") = (us, None).
Proof.
  intros Hus.
  destruct (formatBits_loop_head 19 us "") as (d & rest & Hd & E); [lia|].
  unfold ParseUint. rewrite E, <- E.
  rewrite ParseUint_loop_formatBits_loop.
  - reflexivity.
  - exact Hus.
  - unfold maxUint64 in Hus. change (10 ^ Z.of_nat 20) with 100000000000000000000.
    change (2 ^ 64 - 1) with 18446744073709551615 in Hus. lia.
Qed.

(** [ParseInt] inverts [FormatInt] on all of int64. *)
Lemma ParseInt_FormatInt (k : Z) :
  - 2 ^ 63 <= k < 2 ^ 63 → ParseInt (FormatInt k) = (k, None).
Proof.
  change (2 ^ 63) with 9223372036854775808. intros Hk.
  unfold FormatInt, formatBits. destruct (k <? 0) eqn:Eneg.
  - apply Z.ltb_lt in Eneg.
    assert (Hu : uint64 (- uint64 k) = - k).
    { unfold uint64. change (2 ^ 64) with 18446744073709551616.
      Z.div_mod_to_equations. lia. }
    rewrite Hu. unfold ParseInt.
    rewrite (bool_decide_eq_true_2 ("-"%char = "-"%char)) by reflexivity.
    rewrite orb_true_r.
    rewrite ParseUint_formatBits_loop
      by (unfold maxUint64; change (2 ^ 64 - 1) with 18446744073709551615; lia).
    cbn [negb andb]. change (2 ^ 63) with 9223372036854775808.
    replace (9223372036854775808 <? - k) with false
      by (symmetry; apply Z.ltb_ge; lia).
    f_equal. unfold int64.
    change (2 ^ 64) with 18446744073709551616.
    change (2 ^ 63) with 9223372036854775808.
    Z.div_mod_to_equations. lia.
  - apply Z.ltb_ge in Eneg.
    assert (Hu : uint64 k = k).
    { apply uint64_small. unfold maxUint64.
      change (2 ^ 64 - 1) with 18446744073709551615. lia. }
    rewrite Hu.
    destruct (formatBits_loop_head 19 k "") as (d & rest & Hd & E); [lia|].
    unfold ParseInt. rewrite E.
    rewrite (bool_decide_eq_false_2 (byte_of (d + 48) = "-"%char))
      by (apply byte_of_digit_neq; [exact Hd | vm_compute; reflexivity]).
    rewrite (bool_decide_eq_false_2 (byte_of (d + 48) = "+"%char))
      by (apply byte_of_digit_neq; [exact Hd | vm_compute; reflexivity]).
    cbn [orb]. rewrite <- E.
    rewrite ParseUint_formatBits_loop
      by (unfold maxUint64; change (2 ^ 64 - 1) with 18446744073709551615; lia).
    cbn [negb andb]. change (2 ^ 63) with 9223372036854775808.
    replace (9223372036854775808 <=? k) with false
      by (symmetry; apply Z.leb_gt; lia).
    f_equal. unfold int64.
    change (2 ^ 64) with 18446744073709551616.
    change (2 ^ 63) with 9223372036854775808.
    Z.div_mod_to_equations. lia.
Qed.

End strconv_facts.

(** ** Splitting the metadata *)

Lemma append_assoc (a b c : string) : (a +:+ b) +:+ c = a +:+ b +:+ c.
Proof.
  induction a as [|x a IH]; [reflexivity|].
  change (String x ((a +:+ b) +:+ c) = String x (a +:+ b +:+ c)).
  f_equal. exact IH.
Qed.

Lemma no_sep_append (sep : ascii) (a b : string) :
  no_sep sep a → no_sep sep b → no_sep sep (a +:+ b).
Proof. induction a as [|x a IH]; simpl; [tauto | intros [? ?] ?; auto]. Qed.

Lemma Split_token (sep : ascii) (t rest : string) :
  no_sep sep t →
  strings.Split (t +:+ String sep rest) sep = t :: strings.Split rest sep.
Proof.
  induction t as [|x t IH]; simpl.
  - intros _. rewrite bool_decide_eq_true_2; reflexivity.
  - intros [Hx Ht]. rewrite (bool_decide_eq_false_2 _ Hx), (IH Ht). reflexivity.
Qed.

Lemma formatBits_loop_no_sep (rounds : nat) :
  ∀ (us : Z) (a : string),
    0 <= us → no_sep "," a → no_sep "," (strconv.formatBits_loop rounds us a).
Proof.
  induction rounds as [|r IH]; intros us a Hus Ha; [exact Ha|].
  cbn [strconv.formatBits_loop]. destruct (10 <=? us) eqn:E.
  - apply IH; [apply Z.div_pos; lia|]. split; [|exact Ha].
    apply byte_of_digit_neq; [|vm_compute; reflexivity].
    pose proof (Z.div_mod us 10). pose proof (Z.mod_pos_bound us 10). lia.
  - apply Z.leb_gt in E. split; [|exact Ha].
    apply byte_of_digit_neq; [lia | vm_compute; reflexivity].
Qed.

Lemma FormatInt_no_sep (k : Z) : no_sep "," (strconv.FormatInt k).
Proof.
  unfold strconv.FormatInt, strconv.formatBits.
  assert (H64 : ∀ z, 0 <= strconv.uint64 z).
  { intros z. unfold strconv.uint64. apply Z.mod_pos_bound. lia. }
  destruct (k <? 0).
  - split; [discriminate|]. apply formatBits_loop_no_sep; [apply H64 | exact I].
  - apply formatBits_loop_no_sep; [apply H64 | exact I].
Qed.

Lemma Serialize_render `{MapOrder} (i : offsetInfo) :
  Metadata (Serialize i) = render (GoMap.range (PendingOffsets i)).
Proof.
  unfold Serialize. simpl.
  assert (G : ∀ l acc,
    foldl (fun meta k => meta +:+ strconv.FormatInt k +:+ ",") acc l
    = acc +:+ render l).
  { induction l as [|k l IH]; intros acc.
    - simpl. induction acc as [|x acc IHa]; [reflexivity|].
      change (String x acc = String x (acc +:+ "")). f_equal. exact IHa.
    - cbn [foldl]. rewrite IH. unfold render. cbn [foldr].
      now rewrite !append_assoc. }
  apply (G _ "").
Qed.

Lemma Split_render (l : list Z) :
  strings.Split (render l) "," = map strconv.FormatInt l ++ [""].
Proof.
  induction l as [|k l IH]; [reflexivity|].
  change (render (k :: l)) with (strconv.FormatInt k +:+ String "," (render l)).
  rewrite Split_token by apply FormatInt_no_sep.
  rewrite IH. reflexivity.
Qed.

(** ** Deserialize *)

Lemma ParseInt_empty : strconv.ParseInt "" = (0, Some strconv.ErrSyntax).
Proof. reflexivity. Qed.

Lemma set_PendingOffsets_same (i : offsetInfo) :
  set_PendingOffsets i (PendingOffsets i) = i.
Proof. destruct i; reflexivity. Qed.

(** One round of the loop on a token [ParseInt] rejects, the empty token
    included: the token is skipped. *)
Lemma Deserialize_loop_skip (k : string) (parts : list string) (i : offsetInfo) :
  ¬ well_formed k →
  Deserialize_loop (k :: parts) i = Deserialize_loop parts i.
Proof.
  unfold well_formed. intros Hk. cbn [Deserialize_loop].
  case_bool_decide; [reflexivity|].
  destruct (strconv.ParseInt k) as [v [e|]]; [reflexivity|].
  now contradiction Hk.
Qed.

(** One round on a token [ParseInt] accepts: its value is stored. *)
Lemma Deserialize_loop_store (k : string) (v : Z) (parts : list string)
    (i : offsetInfo) :
  strconv.ParseInt k = (v, None) →
  Deserialize_loop (k :: parts) i =
    (m ← GoMap.store (PendingOffsets i) v;
     Deserialize_loop parts (set_PendingOffsets i m)).
Proof.
  intros Hk. cbn [Deserialize_loop].
  rewrite bool_decide_eq_false_2.
  - rewrite Hk. reflexivity.
  - intros ->. rewrite ParseInt_empty in Hk. discriminate Hk.
Qed.

Lemma well_formed_cases (k : string) :
  (∃ v, strconv.ParseInt k = (v, None)) ∨ ¬ well_formed k.
Proof.
  unfold well_formed. destruct (strconv.ParseInt k) as [v [e|]]; simpl.
  - right. discriminate.
  - left. now exists v.
Qed.

Lemma Deserialize_loop_filter (parts : list string) :
  ∀ i, Deserialize_loop parts i = Deserialize_loop (filter well_formed parts) i.
Proof.
  induction parts as [|k parts IH]; intros i; [reflexivity|].
  destruct (well_formed_cases k) as [[v Hv] | Hk].
  - rewrite filter_cons_True by (unfold well_formed; now rewrite Hv).
    rewrite !(Deserialize_loop_store k v) by exact Hv.
    destruct (GoMap.store (PendingOffsets i) v) as [m | p | m]; simpl;
      try reflexivity; now rewrite IH.
  - rewrite filter_cons_False by exact Hk.
    rewrite Deserialize_loop_skip by exact Hk. apply IH.
Qed.

Lemma Deserialize_loop_allocated (parts : list string) :
  ∀ (i : offsetInfo) (s : gset Z),
    PendingOffsets i = Some s →
    ∃ s', Deserialize_loop parts i = Ok (set_PendingOffsets i (Some s')) ∧
          ∀ v, v ∈ s' ↔
               v ∈ s ∨ ∃ k, k ∈ parts ∧ strconv.ParseInt k = (v, None).
Proof.
  induction parts as [|k parts IH]; intros i s Hs.
  - exists s. split.
    + simpl. now rewrite <- Hs, set_PendingOffsets_same.
    + intros v. split; [tauto|]. intros [? | (k & Hk & _)]; [assumption|].
      now apply elem_of_nil in Hk.
  - destruct (well_formed_cases k) as [[v0 Hv0] | Hk].
    + rewrite (Deserialize_loop_store k v0) by exact Hv0.
      rewrite Hs. simpl.
      destruct (IH (set_PendingOffsets i (Some ({[v0]} ∪ s))) ({[v0]} ∪ s) eq_refl)
        as (s' & E & Hmem).
      exists s'. split; [exact E|].
      intros v. rewrite Hmem, elem_of_union, elem_of_singleton. split.
      * intros [[-> | Hv] | (k' & Hk' & Hp)].
        -- right. exists k. split; [left | exact Hv0].
        -- now left.
        -- right. exists k'. split; [now right | exact Hp].
      * intros [Hv | (k' & Hk' & Hp)]; [left; now right|].
        apply elem_of_cons in Hk' as [-> | Hk'].
        -- left. left. congruence.
        -- right. now exists k'.
    + rewrite Deserialize_loop_skip by exact Hk.
      destruct (IH i s Hs) as (s' & E & Hmem).
      exists s'. split; [exact E|].
      intros v. rewrite Hmem. split.
      * intros [Hv | (k' & Hk' & Hp)]; [now left|].
        right. exists k'. split; [now right | exact Hp].
      * intros [Hv | (k' & Hk' & Hp)]; [now left|].
        apply elem_of_cons in Hk' as [-> | Hk'].
        -- contradiction Hk. unfold well_formed. now rewrite Hp.
        -- right. now exists k'.
Qed.

Lemma Deserialize_loop_malformed (parts : list string) (i : offsetInfo) :
  (∀ k, k ∈ parts → ¬ well_formed k) → Deserialize_loop parts i = Ok i.
Proof.
  induction parts as [|k parts IH]; intros Hall; [reflexivity|].
  rewrite Deserialize_loop_skip by (apply Hall; left).
  apply IH. intros k' Hk'. apply Hall. now right.
Qed.

Lemma Deserialize_loop_nil_map (parts : list string) (i : offsetInfo) :
  PendingOffsets i = None →
  (∃ k, k ∈ parts ∧ well_formed k) →
  Deserialize_loop parts i = Panic NilMapWrite.
Proof.
  intros Hnil. induction parts as [|k parts IH]; intros (k0 & Hk0 & Hwf).
  - now apply elem_of_nil in Hk0.
  - destruct (well_formed_cases k) as [[v Hv] | Hk].
    + rewrite (Deserialize_loop_store k v) by exact Hv.
      rewrite Hnil. reflexivity.
    + rewrite Deserialize_loop_skip by exact Hk. apply IH.
      apply elem_of_cons in Hk0 as [-> | Hk0]; [contradiction|].
      now exists k0.
Qed.

Lemma decimal_value_from_formatBits_loop (rounds : nat) :
  ∀ (us : Z) (a : string),
    0 <= us < 10 ^ Z.of_nat rounds →
    decimal_value_from (strconv.formatBits_loop rounds us a) 0
    = decimal_value_from a us.
Proof.
  assert (Hstep : ∀ d n s, 0 <= d < 10 →
    decimal_value_from (String (strconv.byte_of (d + 48)) s) n
    = decimal_value_from s (n * 10 + d)).
  { intros d n s Hd. cbn [decimal_value_from].
    rewrite byte_val_of by lia.
    replace (d + 48 - 48) with d by lia.
    replace (0 <=? d) with true by (symmetry; apply Z.leb_le; lia).
    replace (d <=? 9) with true by (symmetry; apply Z.leb_le; lia).
    reflexivity. }
  induction rounds as [|r IH]; intros us a Hus.
  - simpl in *. replace us with 0 by lia. reflexivity.
  - cbn [strconv.formatBits_loop]. destruct (10 <=? us) eqn:E.
    + apply Z.leb_le in E.
      pose proof (Z.div_mod us 10). pose proof (Z.mod_pos_bound us 10).
      assert (0 <= us / 10) by (apply Z.div_pos; lia).
      rewrite Nat2Z.inj_succ, Z.pow_succ_r in Hus by lia.
      rewrite IH by lia. rewrite Hstep by lia. f_equal. lia.
    + apply Z.leb_gt in E. rewrite Hstep by lia. f_equal.
Qed.

(** A non-negative int64 is rendered as its decimal digits. *)
Lemma decimal_value_FormatInt (k : Z) :
  0 <= k < 2 ^ 63 → decimal_value (strconv.FormatInt k) = Some k.
Proof.
  change (2 ^ 63) with 9223372036854775808. intros Hk.
  unfold strconv.FormatInt, strconv.formatBits.
  replace (k <? 0) with false by (symmetry; apply Z.ltb_ge; lia).
  rewrite uint64_small
    by (unfold strconv.maxUint64; change (2 ^ 64 - 1) with 18446744073709551615; lia).
  destruct (formatBits_loop_head 19 k "") as (d & rest & Hd & E); [lia|].
  unfold decimal_value. rewrite E, <- E.
  rewrite decimal_value_from_formatBits_loop; [reflexivity|].
  change (10 ^ Z.of_nat 20) with 100000000000000000000. lia.
Qed.

(** C9: [Deserialize] skips every token [ParseInt] rejects: for every
    ledger the outcome is that of the loop over the accepted tokens alone,
    and a metadata string without an accepted token leaves the ledger as it
    is.  On a ledger with an allocated pending map [Deserialize] returns for
    every metadata string, and the pending set it returns holds what it held
    before and the values of the accepted tokens, nothing else. *)
Theorem Deserialize_drops_malformed (i : offsetInfo) :
  Deserialize i =
    Deserialize_loop (filter well_formed (strings.Split (Metadata i) ",")) i ∧
  ((∀ k, k ∈ strings.Split (Metadata i) "," → ¬ well_formed k) →
     Deserialize i = Ok i) ∧
  (∀ s, PendingOffsets i = Some s →
     ∃ s', Deserialize i = Ok (mkOffsetInfo (Offset i) (Some s') (Metadata i)) ∧
           ∀ v, v ∈ s' ↔
                v ∈ s ∨ ∃ k, k ∈ strings.Split (Metadata i) "," ∧
                             strconv.ParseInt k = (v, None)).
Proof.
  unfold Deserialize. split; [|split].
  - apply Deserialize_loop_filter.
  - apply Deserialize_loop_malformed.
  - intros s Hs.
    destruct (Deserialize_loop_allocated (strings.Split (Metadata i) ",") i s Hs)
      as (s' & E & Hmem).
    exists s'. split; [|exact Hmem].
    rewrite E. reflexivity.
Qed.

Lemma Deserialize_drops_malformed_witness :
  let i := fresh_ledger 3 "12,abc,7," in
  PendingOffsets i = Some ∅ ∧
  Deserialize i = Ok (mkOffsetInfo 3 (Some {[12; 7]}) "12,abc,7,").
Proof.
  intros i. split; [reflexivity|].
  destruct (proj2 (proj2 (Deserialize_drops_malformed i)) ∅ eq_refl)
    as (s' & E & Hmem).
  assert (Hs' : s' = {[12; 7]}).
  { apply set_eq. intros v.
    rewrite Hmem, elem_of_union, !elem_of_singleton. split.
    - intros [Hv | (k & Hk & Hp)]; [now apply not_elem_of_empty in Hv|].
      change (k ∈ ["12"; "abc"; "7"; ""]) in Hk.
      apply elem_of_cons in Hk as [-> | Hk].
      { vm_compute in Hp. injection Hp as Hv. left. symmetry. exact Hv. }
      apply elem_of_cons in Hk as [-> | Hk].
      { vm_compute in Hp. discriminate Hp. }
      apply elem_of_cons in Hk as [-> | Hk].
      { vm_compute in Hp. injection Hp as Hv. right. symmetry. exact Hv. }
      apply elem_of_cons in Hk as [-> | Hk].
      { vm_compute in Hp. discriminate Hp. }
      now apply elem_of_nil in Hk.
    - intros [-> | ->]; right.
      + exists "12". split; [left | reflexivity].
      + exists "7". split; [|reflexivity].
        change ("7" ∈ ["12"; "abc"; "7"; ""]). right. right. left. }
  rewrite <- Hs'. exact E.
Defined.

(** C8: the pending offsets, all non-negative int64 values, are rendered
    as their decimal digits, each followed by one [","], in the order the
    map is ranged over: splitting the metadata at [","] gives the tokens and
    one empty string after the last separator, and an empty set gives the
    empty string.  [Deserialize] on a fresh ledger holding that metadata
    returns exactly the pending set, whatever the order was. *)
Theorem Serialize_Deserialize_round_trip `{MapOrder}
    (s : gset Z) (offset offset' : Z) (metadata : string) :
  (∀ k, k ∈ s → 0 <= k < 2 ^ 63) →
  let i := Serialize (mkOffsetInfo offset (Some s) metadata) in
  Metadata i = render (range_keys s) ∧
  strings.Split (Metadata i) "," = map strconv.FormatInt (range_keys s) ++ [""] ∧
  (∀ k, k ∈ s → decimal_value (strconv.FormatInt k) = Some k) ∧
  (s = ∅ → Metadata i = "") ∧
  Deserialize (fresh_ledger offset' (Metadata i))
  = Ok (mkOffsetInfo offset' (Some s) (Metadata i)).
Proof.
  intros Hrange i.
  assert (Hmd : Metadata i = render (range_keys s))
    by apply (Serialize_render (mkOffsetInfo offset (Some s) metadata)).
  assert (Hsplit : strings.Split (Metadata i) ","
                   = map strconv.FormatInt (range_keys s) ++ [""])
    by (rewrite Hmd; apply Split_render).
  split; [exact Hmd|]. split; [exact Hsplit|]. split; [|split].
  - intros k Hk. apply decimal_value_FormatInt. now apply Hrange.
  - intros ->. rewrite Hmd.
    now rewrite (proj2 (range_keys_nil ∅) eq_refl).
  - destruct (Deserialize_loop_allocated (strings.Split (Metadata i) ",")
                (fresh_ledger offset' (Metadata i)) ∅ eq_refl)
      as (s' & E & Hmem).
    unfold Deserialize.
    change (Metadata (fresh_ledger offset' (Metadata i))) with (Metadata i).
    rewrite E. unfold set_PendingOffsets, fresh_ledger. simpl.
    do 2 f_equal. f_equal. apply set_eq. intros v. rewrite Hmem.
    rewrite Hsplit. split.
    + intros [Hv | (k & Hk & Hp)]; [now apply not_elem_of_empty in Hv|].
      apply elem_of_app in Hk as [Hk | Hk].
      * apply list_elem_of_fmap in Hk as (x & -> & Hx).
        apply range_keys_elem_of in Hx.
        rewrite ParseInt_FormatInt in Hp by (specialize (Hrange x Hx); lia).
        congruence.
      * apply list_elem_of_singleton in Hk as ->.
        rewrite ParseInt_empty in Hp. discriminate Hp.
    + intros Hv. right. exists (strconv.FormatInt v). split.
      * apply elem_of_app. left. apply list_elem_of_fmap.
        exists v. split; [reflexivity | now apply range_keys_elem_of].
      * apply ParseInt_FormatInt. specialize (Hrange v Hv). lia.
Qed.

Lemma Serialize_Deserialize_round_trip_witness :
  let s : gset Z := {[5; 3; 9]} in
  (∀ k, k ∈ s → 0 <= k < 2 ^ 63) ∧
  Deserialize
    (fresh_ledger 0 (Metadata (@Serialize reverse_order (mkOffsetInfo 7 (Some s) ""))))
  = Ok (mkOffsetInfo 0 (Some s)
          (Metadata (@Serialize reverse_order (mkOffsetInfo 7 (Some s) "")))).
Proof.
  intros s.
  assert (Hrange : ∀ k, k ∈ s → 0 <= k < 2 ^ 63).
  { intros k Hk. change (2 ^ 63) with 9223372036854775808.
    apply elem_of_union in Hk as [Hk | Hk];
      [apply elem_of_union in Hk as [Hk | Hk]|];
      apply elem_of_singleton in Hk; subst k; lia. }
  split; [exact Hrange|].
  exact (proj2 (proj2 (proj2 (proj2
    (@Serialize_Deserialize_round_trip reverse_order s 7 0 "" Hrange))))).
Defined.

(** ** The nil pending map *)

Lemma Split_empty_metadata (k : string) :
  k ∈ strings.Split "" "," → ¬ well_formed k.
Proof.
  intros Hk. apply list_elem_of_singleton in Hk as ->.
  unfold well_formed. rewrite ParseInt_empty. discriminate.
Qed.

Lemma State_nil_map_panics {S : Type} `{MapOrder}
    (c : partitionConsumer S) :
  PendingOffsets (Info (state c)) = None →
  (∃ k, k ∈ strings.Split (Metadata (Info (state c))) "," ∧ well_formed k) →
  State (Some c) = Panic NilMapWrite.
Proof.
  intros Hnil Hwf. unfold State.
  rewrite bool_decide_eq_false_2.
  - rewrite Hnil. simpl.
    unfold Deserialize. rewrite Deserialize_loop_nil_map; [reflexivity | exact Hnil | exact Hwf].
  - intros E. rewrite E in Hwf. destruct Hwf as (k & Hk & Hwf).
    now apply (Split_empty_metadata k).
Qed.

(** The consumer [newPartitionConsumer] builds holds the ledger it was
    given, with the confirmed offset reset to -1 after an out-of-range
    reply. *)
Lemma newPartitionConsumer_state {S M : Type} `{MapOrder}
    `{ConsumerManager M S}
    (manager manager' : M) (topic : string) (partition : Z)
    (info : offsetInfo) (defaultOffset : Z) (c : partitionConsumer S) (e : error) :
  newPartitionConsumer manager topic partition info defaultOffset
  = (manager', (Some c, e)) →
  e = None ∧ Dirty (state c) = false ∧ closed c = false ∧
  (Info (state c) = info ∨ Info (state c) = set_Offset info (-1)).
Proof.
  unfold newPartitionConsumer.
  destruct (ConsumePartition manager topic partition (NextOffset info defaultOffset))
    as [m1 [p1 e1]].
  case_bool_decide.
  - destruct (ConsumePartition m1 topic partition defaultOffset) as [m2 [p2 e2]].
    destruct e2; intros E; [discriminate E|].
    injection E as _ <- <-. repeat split. now right.
  - destruct e1; intros E; [discriminate E|].
    injection E as _ <- <-. repeat split. now left.
Qed.

(** C5: on a ledger whose pending map is nil and whose metadata holds a
    token [ParseInt] accepts, [Deserialize] panics with a write to a nil
    map; and [State] panics in the same way on every consumer
    [newPartitionConsumer] builds from such a ledger. *)
Theorem Deserialize_needs_allocated_map {S M : Type}
    `{MapOrder} `{ConsumerManager M S} (i : offsetInfo) :
  PendingOffsets i = None →
  (∃ k, k ∈ strings.Split (Metadata i) "," ∧ well_formed k) →
  Deserialize i = Panic NilMapWrite ∧
  ∀ (manager manager' : M) (topic : string) (partition defaultOffset : Z)
    (c : partitionConsumer S),
    newPartitionConsumer manager topic partition i defaultOffset
    = (manager', (Some c, None)) →
    State (Some c) = Panic NilMapWrite.
Proof.
  intros Hnil Hwf. split.
  - unfold Deserialize. now apply Deserialize_loop_nil_map.
  - intros manager manager' topic partition defaultOffset c Hnew.
    apply newPartitionConsumer_state in Hnew as (_ & _ & _ & [E | E]);
      apply State_nil_map_panics; rewrite E; assumption.
Qed.

Lemma Deserialize_needs_allocated_map_witness :
  let i := mkOffsetInfo 3 None "12,abc,7," in
  let stream := mkFakeStream None 0 0 in
  let c := mkPartitionConsumer (Some stream) (mkPartitionState i false)
             false ChanOpen ChanOpen in
  PendingOffsets i = None ∧
  (∃ k, k ∈ strings.Split (Metadata i) "," ∧ well_formed k) ∧
  @newPartitionConsumer _ elements_order _ fake_manager_ops
     [(Some stream, None)] "topic" 0 i 0 = ([], (Some c, None)) ∧
  Deserialize i = Panic NilMapWrite ∧
  @State _ elements_order (Some c) = Panic NilMapWrite.
Proof.
  intros i stream c.
  assert (Hnil : PendingOffsets i = None) by reflexivity.
  assert (Hwf : ∃ k, k ∈ strings.Split (Metadata i) "," ∧ well_formed k).
  { exists "12". split; [left | reflexivity]. }
  assert (Hnew : @newPartitionConsumer _ elements_order _
                   fake_manager_ops [(Some stream, None)] "topic" 0 i 0
                 = ([], (Some c, None))) by reflexivity.
  pose proof (@Deserialize_needs_allocated_map _ _ elements_order
                fake_manager_ops i Hnil Hwf) as [Hd Hs].
  exact (conj Hnil (conj Hwf (conj Hnew (conj Hd
    (Hs [(Some stream, None)] [] "topic" 0 0 c Hnew))))).
Defined.

(** ** Diff *)

Lemma ascending_lookup (l : list Z) :
  ascending l →
  ∀ (a b : nat) (ya yb : Z),
    (a < b)%nat → l !! a = Some ya → l !! b = Some yb → ya < yb.
Proof.
  unfold ascending. induction 1 as [|y l Hl IH Hall]; intros a b ya yb Hab Ha Hb.
  - rewrite lookup_nil in Ha. discriminate Ha.
  - destruct b as [|b]; [lia|]. simpl in Hb. destruct a as [|a]; simpl in Ha.
    + injection Ha as <-.
      rewrite Forall_forall in Hall. apply Hall.
      eapply list_elem_of_lookup_2. exact Hb.
    + apply (IH a b); [lia | exact Ha | exact Hb].
Qed.

Section Search_facts.
Variables (o : list Z) (x : Z).
Hypothesis o_ascending : ascending o.

(** The predicate [Diff] hands to [sort.Search]. *)
Let f : nat → outcome bool := fun i => y ← index o i; Ok (x <=? y).

Lemma Search_loop_lower_bound (rounds : nat) :
  ∀ i j : nat,
    (i ≤ j)%nat → (j ≤ length o)%nat → (j - i ≤ rounds)%nat →
    (∀ k y, (k < i)%nat → o !! k = Some y → y < x) →
    (∀ k y, (j ≤ k)%nat → o !! k = Some y → x <= y) →
    ∃ n, sort.Search_loop rounds f i j = Ok n ∧ lower_bound o x n.
Proof.
  induction rounds as [|r IH]; intros i j Hij Hj Hr Hlo Hhi.
  - exists i. split; [reflexivity|].
    assert (i = j) by lia. subst j. repeat split; assumption.
  - cbn [sort.Search_loop]. destruct (i <? j)%nat eqn:E.
    + apply Nat.ltb_lt in E.
      set (h := ((i + j) / 2)%nat).
      assert (Hh : (i ≤ h < j)%nat).
      { unfold h. pose proof (Nat.div_mod_eq (i + j) 2).
        pose proof (Nat.mod_upper_bound (i + j) 2). lia. }
      destruct (lookup_lt_is_Some_2 o h) as [yh Hyh]; [lia|].
      assert (Hf : f h = Ok (x <=? yh))
        by (unfold f, index; rewrite Hyh; reflexivity).
      rewrite Hf. simpl.
      destruct (x <=? yh) eqn:Ex; simpl.
      * apply Z.leb_le in Ex. apply IH; try lia; [exact Hlo|].
        intros k y Hk Hy. destruct (decide (k = h)) as [-> | Hne].
        -- congruence.
        -- assert (Hlt : (h < k)%nat) by lia.
           pose proof (ascending_lookup o o_ascending h k yh y Hlt Hyh Hy). lia.
      * apply Z.leb_gt in Ex. apply IH; try lia; [|exact Hhi].
        intros k y Hk Hy. destruct (decide (k = h)) as [-> | Hne].
        -- congruence.
        -- assert (Hlt : (k < h)%nat) by lia.
           pose proof (ascending_lookup o o_ascending k h y yh Hlt Hy Hyh). lia.
    + apply Nat.ltb_ge in E. exists i. split; [reflexivity|].
      assert (i = j) by lia. subst j. repeat split; assumption.
Qed.

Lemma Search_lower_bound :
  ∃ n, sort.Search (length o) f = Ok n ∧ lower_bound o x n.
Proof.
  apply Search_loop_lower_bound; try lia.
  intros k y Hk Hy. apply lookup_lt_Some in Hy. exfalso. lia.
Qed.

(** The element at the lower bound is [x] exactly when [x] occurs. *)
Lemma lower_bound_hit (n : nat) :
  lower_bound o x n →
  (if (n <? length o)%nat then y ← index o n; Ok (bool_decide (y = x))
   else Ok false)
  = Ok (bool_decide (x ∈ o)).
Proof.
  intros (Hn & Hlo & Hhi). destruct (n <? length o)%nat eqn:E.
  - apply Nat.ltb_lt in E.
    destruct (lookup_lt_is_Some_2 o n E) as [yn Hyn].
    unfold index. rewrite Hyn. simpl. f_equal.
    apply bool_decide_ext. split.
    + intros <-. eapply list_elem_of_lookup_2. exact Hyn.
    + intros Hx. apply list_elem_of_lookup_1 in Hx as [k Hk].
      destruct (decide (k < n)%nat) as [Hlt | Hge].
      * specialize (Hlo k x Hlt Hk). lia.
      * destruct (decide (k = n)) as [-> | Hne]; [congruence|].
        assert (Hlt : (n < k)%nat) by lia.
        pose proof (ascending_lookup o o_ascending n k yn x Hlt Hyn Hk).
        specialize (Hhi n yn (le_n n) Hyn). lia.
  - apply Nat.ltb_ge in E. f_equal. symmetry.
    apply bool_decide_eq_false_2. intros Hx.
    apply list_elem_of_lookup_1 in Hx as [k Hk].
    pose proof (lookup_lt_Some _ _ _ Hk) as Hlen.
    assert (Hlt : (k < n)%nat) by lia.
    specialize (Hlo k x Hlt Hk). lia.
Qed.

End Search_facts.

Lemma Diff_loop_filter (o : list Z) :
  ascending o →
  ∀ p res, Diff_loop p o res = Ok (res ++ filter (fun x => x ∉ o) p).
Proof.
  intros Ho. induction p as [|x p IH]; intros res.
  - simpl. now rewrite app_nil_r.
  - cbn [Diff_loop].
    destruct (Search_lower_bound o x Ho) as (n & En & Hn).
    rewrite En. simpl.
    rewrite (lower_bound_hit o x Ho n Hn). simpl.
    case_bool_decide as Hx.
    + rewrite IH. rewrite filter_cons_False by (intros Hnot; now apply Hnot).
      reflexivity.
    + rewrite IH. rewrite filter_cons_True by exact Hx.
      now rewrite <- app_assoc.
Qed.

Lemma filter_absent_nil (A B : list Z) :
  (∀ x, x ∈ A → x ∈ B) → filter (fun x => x ∉ B) A = [].
Proof.
  induction A as [|a A IH]; intros Hsub; [reflexivity|].
  rewrite filter_cons_False by (intros Hnot; apply Hnot, Hsub; left).
  apply IH. intros x Hx. apply Hsub. now right.
Qed.

(** C10: for ascending sequences [A] and [B] without duplicates,
    [A.Diff(B)] returns the elements of [A] that do not occur in [B], in the
    order of [A]; [A.Diff(A)] and [[].Diff(B)] are empty. *)
Theorem Diff_is_difference (A B : list Z) :
  ascending A → ascending B →
  Diff A B = Ok (filter (fun x => x ∉ B) A) ∧
  Diff A A = Ok [] ∧
  Diff [] B = Ok [].
Proof.
  intros HA HB. unfold Diff. split; [|split].
  - now rewrite Diff_loop_filter.
  - rewrite Diff_loop_filter by exact HA. simpl. f_equal.
    apply filter_absent_nil. auto.
  - reflexivity.
Qed.

Lemma Diff_is_difference_witness :
  ascending [0; 1; 2; 3; 4; 5] ∧ ascending [1; 3; 5] ∧
  Diff [0; 1; 2; 3; 4; 5] [1; 3; 5] = Ok [0; 2; 4].
Proof.
  assert (HA : ascending [0; 1; 2; 3; 4; 5])
    by (unfold ascending; repeat constructor; lia).
  assert (HB : ascending [1; 3; 5])
    by (unfold ascending; repeat constructor; lia).
  exact (conj HA (conj HB
    (proj1 (Diff_is_difference [0; 1; 2; 3; 4; 5] [1; 3; 5] HA HB)))).
Defined.

(** * Further properties of the ledger *)

Lemma append_cons_nonempty (a b : string) (c : ascii) : a +:+ String c b ≠ "".
Proof. destruct a; discriminate. Qed.

Lemma render_nil (l : list Z) : render l = "" ↔ l = [].
Proof.
  split; [|intros ->; reflexivity].
  destruct l as [|k l]; [reflexivity|]. intros E. exfalso.
  change (render (k :: l)) with (strconv.FormatInt k +:+ String "," (render l)) in E.
  now apply append_cons_nonempty in E.
Qed.

Lemma range_nil `{MapOrder} (m : GoMap.t) :
  GoMap.range m = [] ↔ GoMap.keys m = ∅.
Proof. destruct m as [s|]; simpl; [apply range_keys_nil | tauto]. Qed.

(** X1: [Serialize] leaves the metadata empty exactly when there is no
    pending offset (a nil map or an empty one): the empty string [State]
    takes for "not serialized yet" is also what an empty set serializes to,
    and no other set does. *)
Theorem Serialize_empty_iff `{MapOrder} (i : offsetInfo) :
  Metadata (Serialize i) = "" ↔ GoMap.keys (PendingOffsets i) = ∅.
Proof. rewrite Serialize_render, render_nil. apply range_nil. Qed.

(** X2: the round trip holds for every int64 value, negative ones
    included, and into a ledger that already holds pending offsets:
    [Deserialize] on an allocated map [s0] next to the metadata
    [Serialize] made of [s] returns the union of [s0] and [s]. *)
Theorem Deserialize_Serialize_union `{MapOrder}
    (s s0 : gset Z) (offset offset' : Z) (metadata : string) :
  (∀ k, k ∈ s → - 2 ^ 63 <= k < 2 ^ 63) →
  let md := Metadata (Serialize (mkOffsetInfo offset (Some s) metadata)) in
  Deserialize (mkOffsetInfo offset' (Some s0) md)
  = Ok (mkOffsetInfo offset' (Some (s0 ∪ s)) md).
Proof.
  intros Hrange md.
  assert (Hsplit : strings.Split md ","
                   = map strconv.FormatInt (range_keys s) ++ [""]).
  { unfold md. rewrite (Serialize_render (mkOffsetInfo offset (Some s) metadata)).
    apply Split_render. }
  destruct (Deserialize_loop_allocated (strings.Split md ",")
              (mkOffsetInfo offset' (Some s0) md) s0 eq_refl) as (s' & E & Hmem).
  unfold Deserialize.
  change (Metadata (mkOffsetInfo offset' (Some s0) md)) with md.
  rewrite E. unfold set_PendingOffsets. simpl.
  do 2 f_equal. f_equal. apply set_eq. intros v.
  rewrite Hmem, Hsplit, elem_of_union. split.
  - intros [Hv | (k & Hk & Hp)]; [now left|]. right.
    apply elem_of_app in Hk as [Hk | Hk].
    + apply list_elem_of_fmap in Hk as (x & -> & Hx).
      apply range_keys_elem_of in Hx.
      rewrite ParseInt_FormatInt in Hp by now apply Hrange.
      congruence.
    + apply list_elem_of_singleton in Hk as ->.
      rewrite ParseInt_empty in Hp. discriminate Hp.
  - intros [Hv | Hv]; [now left|]. right.
    exists (strconv.FormatInt v). split.
    + apply elem_of_app. left. apply list_elem_of_fmap.
      exists v. split; [reflexivity | now apply range_keys_elem_of].
    + apply ParseInt_FormatInt. now apply Hrange.
Qed.

Lemma Deserialize_Serialize_union_witness :
  let s : gset Z := {[-4; 9]} in
  (∀ k, k ∈ s → - 2 ^ 63 <= k < 2 ^ 63) ∧
  Deserialize
    (mkOffsetInfo 0 (Some {[2]})
       (Metadata (@Serialize elements_order (mkOffsetInfo 7 (Some s) ""))))
  = Ok (mkOffsetInfo 0 (Some ({[2]} ∪ s))
          (Metadata (@Serialize elements_order (mkOffsetInfo 7 (Some s) "")))).
Proof.
  intros s.
  assert (Hrange : ∀ k, k ∈ s → - 2 ^ 63 <= k < 2 ^ 63).
  { intros k Hk. change (2 ^ 63) with 9223372036854775808.
    apply elem_of_union in Hk as [Hk | Hk];
      apply elem_of_singleton in Hk; subst k; lia. }
  split; [exact Hrange|].
  exact (@Deserialize_Serialize_union elements_order s {[2]} 7 0 "" Hrange).
Defined.

Lemma Deserialize_loop_nil_map_cases (parts : list string) (i : offsetInfo) :
  PendingOffsets i = None →
  Deserialize_loop parts i = Panic NilMapWrite ∨ Deserialize_loop parts i = Ok i.
Proof.
  intros Hnil. induction parts as [|k parts IH]; [now right|].
  destruct (well_formed_cases k) as [[v Hv] | Hk].
  - left. rewrite (Deserialize_loop_store k v) by exact Hv.
    rewrite Hnil. reflexivity.
  - rewrite Deserialize_loop_skip by exact Hk. exact IH.
Qed.

(** X3: [Deserialize] is idempotent: when it returns a ledger, running it
    on that ledger returns the same ledger again. *)
Theorem Deserialize_idempotent (i i' : offsetInfo) :
  Deserialize i = Ok i' → Deserialize i' = Ok i'.
Proof.
  unfold Deserialize. intros E.
  destruct (PendingOffsets i) as [s|] eqn:Hs.
  - destruct (Deserialize_loop_allocated (strings.Split (Metadata i) ",") i s Hs)
      as (s' & E' & Hmem).
    rewrite E' in E. injection E as <-.
    change (Metadata (set_PendingOffsets i (Some s'))) with (Metadata i).
    destruct (Deserialize_loop_allocated (strings.Split (Metadata i) ",")
                (set_PendingOffsets i (Some s')) s' eq_refl)
      as (s'' & E'' & Hmem').
    rewrite E''. unfold set_PendingOffsets. simpl. do 2 f_equal. f_equal.
    apply set_eq. intros v. rewrite Hmem'. split.
    + intros [Hv | Hv]; [exact Hv|]. apply Hmem. now right.
    + intros Hv. now left.
  - destruct (Deserialize_loop_nil_map_cases (strings.Split (Metadata i) ",") i Hs)
      as [E' | E']; rewrite E' in E; [discriminate E|].
    injection E as <-. exact E'.
Qed.

Lemma Deserialize_idempotent_witness :
  let i := fresh_ledger 3 "12,abc,7," in
  let i' := mkOffsetInfo 3 (Some {[12; 7]}) "12,abc,7," in
  Deserialize i = Ok i' ∧ Deserialize i' = Ok i'.
Proof.
  intros i i'.
  assert (E : Deserialize i = Ok i') by (vm_compute; reflexivity).
  exact (conj E (Deserialize_idempotent i i' E)).
Defined.

(** * Further properties of Diff *)

(** Whatever [o] holds, the search stays inside the range it is given and
    never reads [o] out of range. *)
Lemma Search_loop_in_range (o : list Z) (x : Z) (rounds : nat) :
  ∀ i j : nat,
    (i ≤ j)%nat → (j ≤ length o)%nat →
    ∃ n, sort.Search_loop rounds (fun i => y ← index o i; Ok (x <=? y)) i j = Ok n ∧
         (i ≤ n ≤ j)%nat.
Proof.
  induction rounds as [|r IH]; intros i j Hij Hj.
  - exists i. split; [reflexivity | lia].
  - cbn [sort.Search_loop]. destruct (i <? j)%nat eqn:E.
    + apply Nat.ltb_lt in E.
      set (h := ((i + j) / 2)%nat).
      assert (Hh : (i ≤ h < j)%nat).
      { unfold h. pose proof (Nat.div_mod_eq (i + j) 2).
        pose proof (Nat.mod_upper_bound (i + j) 2). lia. }
      destruct (lookup_lt_is_Some_2 o h) as [yh Hyh]; [lia|].
      unfold index. rewrite Hyh. simpl.
      destruct (x <=? yh); simpl.
      * destruct (IH i h) as (n & En & Hn); [lia | lia|].
        exists n. split; [exact En | lia].
      * destruct (IH (h + 1)%nat j) as (n & En & Hn); [lia | lia|].
        exists n. split; [exact En | lia].
    + exists i. split; [reflexivity | lia].
Qed.

Lemma Diff_loop_bounds (o : list Z) :
  ∀ p res, ∃ r,
    Diff_loop p o res = Ok (res ++ r) ∧
    r `sublist_of` p ∧
    filter (fun x => x ∉ o) p `sublist_of` r.
Proof.
  induction p as [|x p IH]; intros res.
  - exists []. rewrite app_nil_r. repeat split; constructor.
  - cbn [Diff_loop].
    destruct (Search_loop_in_range o x (length o) 0%nat (length o))
      as (n & En & Hn); [lia | lia|].
    unfold sort.Search. rewrite En. simpl.
    assert (Hhit : ∃ b : bool,
      (if (n <? length o)%nat then y ← index o n; Ok (bool_decide (y = x))
       else Ok false) = Ok b ∧ (b = true → x ∈ o)).
    { destruct (n <? length o)%nat eqn:E.
      - apply Nat.ltb_lt in E.
        destruct (lookup_lt_is_Some_2 o n E) as [yn Hyn].
        unfold index. rewrite Hyn. simpl.
        exists (bool_decide (yn = x)). split; [reflexivity|].
        intros Hb. apply bool_decide_eq_true_1 in Hb. subst yn.
        eapply list_elem_of_lookup_2. exact Hyn.
      - exists false. split; [reflexivity | discriminate]. }
    destruct Hhit as (b & Eb & Hb). rewrite Eb. simpl.
    destruct b.
    + destruct (IH res) as (r & Er & Hsub & Hkeep).
      exists r. split; [exact Er|]. split.
      * now apply sublist_cons.
      * rewrite filter_cons_False; [exact Hkeep|].
        intros Hnot. apply Hnot. now apply Hb.
    + destruct (IH (res ++ [x])) as (r & Er & Hsub & Hkeep).
      exists (x :: r). split; [now rewrite Er, <- app_assoc|]. split.
      * now apply sublist_skip.
      * rewrite filter_cons. case_decide.
        -- now apply sublist_skip.
        -- now apply sublist_cons.
Qed.

(** X4: [Diff] returns for every pair of slices, sorted or not: the binary
    search never indexes out of range.  The result keeps the order of [p],
    drops only elements that occur in [o], and keeps every element that
    does not occur in [o]. *)
Theorem Diff_total (p o : list Z) :
  ∃ r, Diff p o = Ok r ∧
       r `sublist_of` p ∧
       filter (fun x => x ∉ o) p `sublist_of` r.
Proof. destruct (Diff_loop_bounds o p []) as (r & E & H1 & H2). now exists r. Qed.

Lemma ascending_filter (P : Z → Prop) `{∀ x, Decision (P x)} (l : list Z) :
  ascending l → ascending (filter P l).
Proof.
  unfold ascending. induction 1 as [|y l Hl IH Hall]; [constructor|].
  rewrite filter_cons. case_decide; [|exact IH].
  constructor; [exact IH|].
  rewrite Forall_forall in *. intros z Hz.
  apply list_elem_of_filter in Hz as [_ Hz]. now apply Hall.
Qed.

(** X5: on ascending slices the result of [Diff] is ascending again and
    shares no element with [o], so it can be handed to [Diff] once more,
    and taking [o] away a second time changes nothing. *)
Theorem Diff_result_ascending (p o : list Z) :
  ascending p → ascending o →
  ∃ r, Diff p o = Ok r ∧
       ascending r ∧
       (∀ x, x ∈ r → x ∈ p ∧ x ∉ o) ∧
       Diff r o = Ok r.
Proof.
  intros Hp Ho. exists (filter (fun x => x ∉ o) p). unfold Diff.
  rewrite !Diff_loop_filter by exact Ho. simpl.
  split; [reflexivity|]. split; [now apply ascending_filter|]. split.
  - intros x Hx. apply list_elem_of_filter in Hx. tauto.
  - f_equal. rewrite list_filter_filter.
    apply list_filter_iff. tauto.
Qed.

Lemma Diff_result_ascending_witness :
  ascending [0; 1; 2; 3; 4; 5] ∧ ascending [1; 3; 5] ∧
  ∃ r, Diff [0; 1; 2; 3; 4; 5] [1; 3; 5] = Ok r ∧ Diff r [1; 3; 5] = Ok r.
Proof.
  assert (HA : ascending [0; 1; 2; 3; 4; 5])
    by (unfold ascending; repeat constructor; lia).
  assert (HB : ascending [1; 3; 5])
    by (unfold ascending; repeat constructor; lia).
  destruct (Diff_result_ascending [0; 1; 2; 3; 4; 5] [1; 3; 5] HA HB)
    as (r & E & _ & _ & E').
  exact (conj HA (conj HB (ex_intro _ r (conj E E')))).
Defined.

(** * Further properties of the partition consumer *)

Lemma MarkOffset_max {S : Type} (c : partitionConsumer S)
    (offset : Z) (metadata : string) :
  ∃ c', MarkOffset (Some c) offset metadata = Ok (Some c') ∧
        Offset (Info (state c')) = Z.max (Offset (Info (state c))) offset ∧
        PendingOffsets (Info (state c')) = PendingOffsets (Info (state c)).
Proof.
  unfold MarkOffset. destruct (Offset (Info (state c)) <? offset) eqn:E.
  - apply Z.ltb_lt in E. eexists. split; [reflexivity|].
    case_bool_decide; simpl; split; try reflexivity; lia.
  - apply Z.ltb_ge in E. exists c. split; [reflexivity|]. split; [lia | reflexivity].
Qed.

(** X6: the confirmed offset only advances.  After any sequence of
    [MarkOffset] calls it is the greatest of the offset the consumer
    started with and the offsets marked, in whatever order they came; the
    pending set is not touched. *)
Theorem MarkOffset_all_max {S : Type} (marks : list (Z * string)) :
  ∀ c : partitionConsumer S,
  ∃ c', MarkOffset_all (Some c) marks = Ok (Some c') ∧
        Offset (Info (state c')) = foldl Z.max (Offset (Info (state c))) marks.*1 ∧
        Offset (Info (state c)) <= Offset (Info (state c')) ∧
        PendingOffsets (Info (state c')) = PendingOffsets (Info (state c)).
Proof.
  induction marks as [|[offset metadata] marks IH]; intros c.
  - exists c. split; [reflexivity|]. split; [reflexivity|].
    split; [lia | reflexivity].
  - destruct (MarkOffset_max c offset metadata) as (c1 & E1 & Ho1 & Hp1).
    destruct (IH c1) as (c' & E' & Ho' & Hle & Hp').
    exists c'. cbn [MarkOffset_all]. rewrite E1. simpl.
    split; [exact E'|]. split; [|split].
    + rewrite Ho', Ho1. reflexivity.
    + lia.
    + congruence.
Qed.

Lemma MarkCommitted_dirty {S : Type} (c : partitionConsumer S) (offset : Z) :
  ∃ c', MarkCommitted (Some c) offset = Ok (Some c') ∧
        Info (state c') = Info (state c) ∧
        Dirty (state c') =
          Dirty (state c) &&
          negb (bool_decide (offset = Offset (Info (state c)))
                || negb (bool_decide (Metadata (Info (state c)) = ""))).
Proof.
  unfold MarkCommitted.
  destruct (bool_decide (offset = Offset (Info (state c)))
            || negb (bool_decide (Metadata (Info (state c)) = ""))).
  - eexists. split; [reflexivity|]. split; [reflexivity|].
    simpl. now rewrite andb_false_r.
  - exists c. split; [reflexivity|]. split; [reflexivity|].
    simpl. now rewrite andb_true_r.
Qed.

(** X7: a commit acknowledgement after a mark.  [MarkOffset(o, md)] with
    [o] above the confirmed offset sets dirty; a following
    [MarkCommitted(o')] clears it exactly when [o'] is [o], or the
    metadata the consumer then holds is not empty.  With empty metadata an
    acknowledgement of another, superseded offset leaves the consumer
    dirty. *)
Theorem MarkCommitted_after_MarkOffset {S : Type} (c : partitionConsumer S)
    (o o' : Z) (md : string) :
  Offset (Info (state c)) < o →
  ∃ c1 c2,
    MarkOffset (Some c) o md = Ok (Some c1) ∧ Dirty (state c1) = true ∧
    MarkCommitted (Some c1) o' = Ok (Some c2) ∧
    (Dirty (state c2) = false ↔
       o' = o ∨ md ≠ "" ∨ Metadata (Info (state c)) ≠ "").
Proof.
  intros Hlt.
  assert (H1 : ∃ c1, MarkOffset (Some c) o md = Ok (Some c1) ∧
                     Dirty (state c1) = true ∧
                     Offset (Info (state c1)) = o ∧
                     Metadata (Info (state c1)) =
                       (if bool_decide (md = "") then Metadata (Info (state c))
                        else md)).
  { unfold MarkOffset. rewrite (proj2 (Z.ltb_lt _ _) Hlt).
    eexists. split; [reflexivity|]. simpl.
    case_bool_decide; simpl; repeat split; reflexivity. }
  destruct H1 as (c1 & E1 & Hd1 & Ho1 & Hm1).
  destruct (MarkCommitted_dirty c1 o') as (c2 & E2 & _ & Hd2).
  exists c1, c2. split; [exact E1|]. split; [exact Hd1|]. split; [exact E2|].
  rewrite Hd2, Hd1, Ho1, Hm1. simpl.
  rewrite negb_false_iff, orb_true_iff, negb_true_iff.
  rewrite bool_decide_eq_true, bool_decide_eq_false.
  clear Hm1 Hd2.
  destruct (decide (md = "")) as [Hmd | Hmd];
    [rewrite (bool_decide_eq_true_2 _ Hmd) | rewrite (bool_decide_eq_false_2 _ Hmd)];
    tauto.
Qed.

Lemma MarkCommitted_after_MarkOffset_witness :
  let c := mkPartitionConsumer (Some (mkFakeStream None 0 0))
             (mkPartitionState (mkOffsetInfo 5 (Some ∅) "") false)
             false ChanOpen ChanOpen in
  Offset (Info (state c)) < 8 ∧
  ∃ c1 c2,
    MarkOffset (Some c) 8 "" = Ok (Some c1) ∧
    MarkCommitted (Some c1) 6 = Ok (Some c2) ∧
    ¬ Dirty (state c2) = false.
Proof.
  intros c.
  assert (Hlt : Offset (Info (state c)) < 8) by (simpl; lia).
  split; [exact Hlt|].
  destruct (MarkCommitted_after_MarkOffset c 8 6 "" Hlt)
    as (c1 & c2 & E1 & _ & E2 & Hiff).
  exists c1, c2. split; [exact E1|]. split; [exact E2|].
  intros Hd. apply Hiff in Hd as [Hd | [Hd | Hd]].
  - discriminate Hd.
  - now apply Hd.
  - now apply Hd.
Defined.

(** X8: [AddPendingOffset] and [RemovePendingOffset] on a consumer whose
    pending map is allocated change the pending set only: the confirmed
    offset, the metadata and dirty stay as they are, so a change of the
    pending set alone never marks the consumer dirty.  Adding an offset and
    removing it again leaves the set without it, and restores the consumer
    when the offset was not pending before. *)
Theorem AddPendingOffset_RemovePendingOffset {S : Type}
    (c : partitionConsumer S) (s : gset Z) (o : Z) :
  PendingOffsets (Info (state c)) = Some s →
  ∃ c1 c2,
    AddPendingOffset (Some c) o = Ok (Some c1) ∧
    PendingOffsets (Info (state c1)) = Some ({[o]} ∪ s) ∧
    RemovePendingOffset (Some c1) o = Ok (Some c2) ∧
    PendingOffsets (Info (state c2)) = Some (s ∖ {[o]}) ∧
    (o ∉ s → c2 = c) ∧
    Dirty (state c1) = Dirty (state c) ∧ Dirty (state c2) = Dirty (state c) ∧
    Offset (Info (state c2)) = Offset (Info (state c)) ∧
    Metadata (Info (state c2)) = Metadata (Info (state c)).
Proof.
  intros Hs. unfold AddPendingOffset. rewrite Hs. simpl.
  eexists. eexists. split; [reflexivity|]. split; [reflexivity|].
  split; [reflexivity|]. simpl.
  assert (Hset : ({[o]} ∪ s) ∖ {[o]} = s ∖ {[o]}).
  { apply set_eq. intros x.
    rewrite !elem_of_difference, elem_of_union, elem_of_singleton. tauto. }
  split; [now rewrite Hset|]. split; [|repeat split].
  intros Ho. rewrite Hset.
  assert (Hid : s ∖ {[o]} = s).
  { apply set_eq. intros x. rewrite elem_of_difference, elem_of_singleton.
    split; [tauto|]. intros Hx. split; [exact Hx|]. intros ->. contradiction. }
  rewrite Hid.
  destruct c as [p [[off pend md] d] cl dy de]. simpl in Hs. subst pend.
  reflexivity.
Qed.

Lemma AddPendingOffset_RemovePendingOffset_witness :
  let c := mkPartitionConsumer (Some (mkFakeStream None 0 0))
             (mkPartitionState (mkOffsetInfo 5 (Some {[9]}) "") false)
             false ChanOpen ChanOpen in
  PendingOffsets (Info (state c)) = Some {[9]} ∧
  ∃ c1, AddPendingOffset (Some c) 7 = Ok (Some c1) ∧
        RemovePendingOffset (Some c1) 7 = Ok (Some c).
Proof.
  intros c.
  assert (Hs : PendingOffsets (Info (state c)) = Some {[9]}) by reflexivity.
  split; [exact Hs|].
  destruct (AddPendingOffset_RemovePendingOffset c {[9]} 7 Hs)
    as (c1 & c2 & E1 & _ & E2 & _ & Hback & _).
  exists c1. split; [exact E1|].
  assert (Hnotin : 7 ∉ ({[9]} : gset Z)).
  { intros Hin. apply elem_of_singleton in Hin. discriminate Hin. }
  rewrite (Hback Hnotin) in E2. exact E2.
Defined.

(** X9: a consumer built from a ledger whose pending map is nil (the zero
    ledger, for one) cannot take a pending offset: [AddPendingOffset]
    panics with a write to a nil map, while [RemovePendingOffset] returns
    and leaves the consumer as it is. *)
Theorem AddPendingOffset_needs_allocated_map {S M : Type} `{MapOrder}
    `{ConsumerManager M S}
    (manager manager' : M) (topic : string) (partition defaultOffset o : Z)
    (info : offsetInfo) (c : partitionConsumer S) :
  PendingOffsets info = None →
  newPartitionConsumer manager topic partition info defaultOffset
  = (manager', (Some c, None)) →
  AddPendingOffset (Some c) o = Panic NilMapWrite ∧
  RemovePendingOffset (Some c) o = Ok (Some c).
Proof.
  intros Hnil Hnew.
  assert (Hc : PendingOffsets (Info (state c)) = None).
  { apply newPartitionConsumer_state in Hnew as (_ & _ & _ & [E | E]);
      rewrite E; exact Hnil. }
  split.
  - unfold AddPendingOffset. rewrite Hc. reflexivity.
  - unfold RemovePendingOffset. rewrite Hc. simpl.
    destruct c as [p [[off pend md] d] cl dy de]. simpl in Hc. subst pend.
    reflexivity.
Qed.

Lemma AddPendingOffset_needs_allocated_map_witness :
  let info := mkOffsetInfo 0 None "" in
  let stream := mkFakeStream None 0 0 in
  let c := mkPartitionConsumer (Some stream) (mkPartitionState info false)
             false ChanOpen ChanOpen in
  PendingOffsets info = None ∧
  @newPartitionConsumer _ elements_order _ fake_manager_ops
     [(Some stream, None)] "topic" 0 info 0 = ([], (Some c, None)) ∧
  AddPendingOffset (Some c) 4 = Panic NilMapWrite.
Proof.
  intros info stream c.
  assert (Hnew : @newPartitionConsumer _ elements_order _ fake_manager_ops
                   [(Some stream, None)] "topic" 0 info 0
                 = ([], (Some c, None))) by reflexivity.
  exact (conj eq_refl (conj Hnew (proj1
    (@AddPendingOffset_needs_allocated_map _ _ elements_order fake_manager_ops
       [(Some stream, None)] [] "topic" 0 0 4 info c eq_refl Hnew)))).
Defined.

(** What a returning [Deserialize] loop has done: only the pending map may
    differ, it holds what it held and the values of the accepted parts,
    and a second run over the same parts changes nothing. *)
Lemma Deserialize_loop_result (parts : list string) (i i' : offsetInfo) :
  Deserialize_loop parts i = Ok i' →
  i' = set_PendingOffsets i (PendingOffsets i') ∧
  Deserialize_loop parts i' = Ok i' ∧
  (PendingOffsets i = None ↔ PendingOffsets i' = None) ∧
  (∀ v, v ∈ GoMap.keys (PendingOffsets i') ↔
        v ∈ GoMap.keys (PendingOffsets i) ∨
        ∃ k, k ∈ parts ∧ strconv.ParseInt k = (v, None)).
Proof.
  intros E. destruct (PendingOffsets i) as [s|] eqn:Hs.
  - destruct (Deserialize_loop_allocated parts i s Hs) as (s' & E' & Hmem).
    rewrite E' in E. injection E as <-. simpl.
    split; [reflexivity|]. split; [|split; [split; discriminate | exact Hmem]].
    destruct (Deserialize_loop_allocated parts
                (set_PendingOffsets i (Some s')) s' eq_refl) as (s'' & E'' & Hmem').
    rewrite E''. unfold set_PendingOffsets. simpl. do 2 f_equal. f_equal.
    apply set_eq. intros v. rewrite Hmem'. split.
    + intros [Hv | Hv]; [exact Hv|]. apply Hmem. now right.
    + intros Hv. now left.
  - destruct (Deserialize_loop_nil_map_cases parts i Hs) as [E' | E'];
      rewrite E' in E; [discriminate E|].
    injection E as <-. rewrite Hs.
    split; [now rewrite <- Hs, set_PendingOffsets_same|].
    split; [exact E'|]. split; [tauto|].
    intros v. simpl. split; [tauto|].
    intros [Hv | (k & Hk & Hp)]; [exact Hv|]. exfalso.
    rewrite (Deserialize_loop_nil_map parts i Hs) in E'; [discriminate E'|].
    exists k. split; [exact Hk|]. unfold well_formed. now rewrite Hp.
Qed.

Lemma len_zero_keys (m : GoMap.t) :
  (GoMap.len m =? 0) = bool_decide (GoMap.keys m = ∅).
Proof.
  pose proof (len_pos_keys m) as Hpos.
  assert (0 <= GoMap.len m) by (destruct m; simpl; lia).
  destruct (bool_decide (GoMap.keys m = ∅)); simpl in Hpos.
  - apply Z.ltb_ge in Hpos. apply Z.eqb_eq. lia.
  - apply Z.ltb_lt in Hpos. apply Z.eqb_neq. lia.
Qed.

Lemma set_state_same {S : Type} (c : partitionConsumer S) :
  set_state c
    (set_Info (state c)
       (set_PendingOffsets (Info (state c)) (PendingOffsets (Info (state c)))))
  = c.
Proof. destruct c as [p [[off pend md] d] cl dy de]. reflexivity. Qed.

(** The three ways [State] returns. *)
Lemma State_cases {S : Type} `{MapOrder} (c : partitionConsumer S)
    (st : partitionState) (h : option (partitionConsumer S)) :
  State (Some c) = Ok (st, h) →
  (Metadata (Info (state c)) = "" ∧
   st = set_Info (state c) (Serialize (Info (state c))) ∧ h = Some c) ∨
  (Metadata (Info (state c)) ≠ "" ∧
   GoMap.keys (PendingOffsets (Info (state c))) = ∅ ∧
   ∃ info, Deserialize (Info (state c)) = Ok info ∧
           st = set_Info (state c) info ∧
           h = Some (set_state c
                       (set_Info (state c)
                          (set_PendingOffsets (Info (state c))
                             (PendingOffsets info))))) ∨
  (Metadata (Info (state c)) ≠ "" ∧
   GoMap.keys (PendingOffsets (Info (state c))) ≠ ∅ ∧
   st = state c ∧ h = Some c).
Proof.
  unfold State. rewrite len_zero_keys.
  case_bool_decide as Hmd.
  - intros E. injection E as <- <-. left. tauto.
  - case_bool_decide as Hk.
    + destruct (Deserialize (Info (state c))) as [info | p | info] eqn:Ed;
        simpl; intros E; try discriminate E.
      injection E as <- <-. right. left.
      split; [exact Hmd|]. split; [exact Hk|]. now exists info.
    + intros E. injection E as <- <-. right. right. tauto.
Qed.

(** X10: [State] is a read with one side effect.  When it returns, the
    snapshot has the dirty flag and the confirmed offset of the consumer,
    and the consumer keeps its stream, flags, confirmed offset and
    metadata; only its pending map may have grown, by what [Deserialize]
    stored, and the snapshot shows that same pending map.  A second call,
    ranging in any order, returns the same dirty flag, offset and pending
    map and leaves the consumer as the first call left it. *)
Theorem State_preserves {S : Type} (order order' : MapOrder)
    (c : partitionConsumer S) (st : partitionState)
    (h : option (partitionConsumer S)) :
  @State S order (Some c) = Ok (st, h) →
  ∃ c', h = Some c' ∧
    Dirty st = Dirty (state c) ∧
    Offset (Info st) = Offset (Info (state c)) ∧
    PendingOffsets (Info st) = PendingOffsets (Info (state c')) ∧
    GoMap.keys (PendingOffsets (Info (state c)))
      ⊆ GoMap.keys (PendingOffsets (Info (state c'))) ∧
    c' = set_state c
           (set_Info (state c)
              (set_PendingOffsets (Info (state c))
                 (PendingOffsets (Info (state c'))))) ∧
    ∃ st', @State S order' (Some c') = Ok (st', Some c') ∧
           Dirty st' = Dirty st ∧
           Offset (Info st') = Offset (Info st) ∧
           PendingOffsets (Info st') = PendingOffsets (Info st).
Proof.
  intros E. apply State_cases in E
    as [(Hmd & -> & ->) | [(Hmd & Hk & info & Ed & -> & ->) | (Hmd & Hk & -> & ->)]].
  - exists c. split; [reflexivity|]. repeat split; try reflexivity.
    + now rewrite set_state_same.
    + exists (set_Info (state c) (@Serialize order' (Info (state c)))).
      split; [|repeat split].
      unfold State. now rewrite bool_decide_eq_true_2 by exact Hmd.
  - unfold Deserialize in Ed.
    apply Deserialize_loop_result in Ed as (Hinfo & Hfix & Hnil & Hmem).
    assert (HO : Offset info = Offset (Info (state c)))
      by (rewrite Hinfo; reflexivity).
    assert (HM : Metadata info = Metadata (Info (state c)))
      by (rewrite Hinfo; reflexivity).
    assert (Ed2 : Deserialize info = Ok info)
      by (unfold Deserialize; rewrite HM; exact Hfix).
    rewrite <- Hinfo.
    exists (set_state c (set_Info (state c) info)).
    split; [reflexivity|]. split; [reflexivity|]. split; [exact HO|].
    split; [reflexivity|].
    split; [intros v Hv; apply Hmem; now left|].
    split; [simpl; now rewrite <- Hinfo|].
    unfold State. simpl.
    rewrite bool_decide_eq_false_2 by (rewrite HM; exact Hmd).
    rewrite len_zero_keys. case_bool_decide as Hk'.
    + rewrite Ed2. simpl. rewrite set_PendingOffsets_same.
      eexists. split; [reflexivity|]. repeat split.
    + eexists. split; [reflexivity|]. repeat split.
  - exists c. split; [reflexivity|]. repeat split; try reflexivity.
    + now rewrite set_state_same.
    + exists (state c). split; [|repeat split].
      unfold State. rewrite (bool_decide_eq_false_2 _ Hmd), len_zero_keys.
      now rewrite (bool_decide_eq_false_2 _ Hk).
Qed.

Lemma State_preserves_witness :
  let c := mkPartitionConsumer (Some (mkFakeStream None 0 0))
             (mkPartitionState (fresh_ledger 3 "12,abc,7,") true)
             false ChanOpen ChanOpen in
  let c' := mkPartitionConsumer (Some (mkFakeStream None 0 0))
              (mkPartitionState (mkOffsetInfo 3 (Some {[12; 7]}) "12,abc,7,") true)
              false ChanOpen ChanOpen in
  @State _ elements_order (Some c) = Ok (state c', Some c') ∧
  ∃ st', @State _ reverse_order (Some c') = Ok (st', Some c') ∧
         PendingOffsets (Info st') = Some {[12; 7]}.
Proof.
  intros c c'.
  assert (E : @State _ elements_order (Some c) = Ok (state c', Some c'))
    by (vm_compute; reflexivity).
  split; [exact E|].
  destruct (State_preserves elements_order reverse_order c (state c') (Some c') E)
    as (c'' & Hc & _ & _ & _ & _ & _ & st' & E' & _ & _ & Hp).
  injection Hc as <-.
  exists st'. split; [exact E' | exact Hp].
Defined.

Lemma range_elem_of `{MapOrder} (m : GoMap.t) (v : Z) :
  v ∈ GoMap.range m ↔ v ∈ GoMap.keys m.
Proof.
  destruct m as [s|]; simpl; [apply range_keys_elem_of|].
  split; [intros Hv; now apply elem_of_nil in Hv | intros Hv; now apply not_elem_of_empty in Hv].
Qed.

(** What [Deserialize] makes of a metadata string on a fresh ledger. *)
Lemma Deserialize_fresh_keys (offset : Z) (metadata : string) :
  ∃ i', Deserialize (fresh_ledger offset metadata) = Ok i' ∧
        ∀ v, v ∈ GoMap.keys (PendingOffsets i') ↔
             ∃ k, k ∈ strings.Split metadata "," ∧ strconv.ParseInt k = (v, None).
Proof.
  destruct (Deserialize_loop_allocated (strings.Split metadata ",")
              (fresh_ledger offset metadata) ∅ eq_refl) as (s' & E & Hmem).
  eexists. split; [exact E|]. intros v. simpl. rewrite Hmem. split.
  - intros [Hv | Hv]; [now apply not_elem_of_empty in Hv | exact Hv].
  - intros Hv. now right.
Qed.

(** X11: the snapshot is consistent whenever [State] had one side to
    reconcile.  If the consumer's metadata is empty or it has no pending
    offsets, and its pending offsets are int64 values, then the metadata of
    the snapshot [State] returns, deserialized on a fresh ledger, gives
    exactly the pending set of the snapshot. *)
Theorem State_metadata_decodes {S : Type} `{MapOrder}
    (c : partitionConsumer S) (st : partitionState)
    (h : option (partitionConsumer S)) (offset : Z) :
  State (Some c) = Ok (st, h) →
  Metadata (Info (state c)) = "" ∨
    GoMap.keys (PendingOffsets (Info (state c))) = ∅ →
  (∀ k, k ∈ GoMap.keys (PendingOffsets (Info (state c))) →
        - 2 ^ 63 <= k < 2 ^ 63) →
  ∃ i', Deserialize (fresh_ledger offset (Metadata (Info st))) = Ok i' ∧
        GoMap.keys (PendingOffsets i') = GoMap.keys (PendingOffsets (Info st)).
Proof.
  intros E Hside Hrange.
  destruct (Deserialize_fresh_keys offset (Metadata (Info st))) as (i' & Ei & Hmem).
  exists i'. split; [exact Ei|]. apply set_eq. intros v. rewrite Hmem. clear Ei Hmem.
  apply State_cases in E
    as [(Hmd & -> & _) | [(Hmd & Hk & info & Ed & -> & _) | (Hmd & Hk & _ & _)]].
  - change (Info (set_Info (state c) (Serialize (Info (state c)))))
      with (Serialize (Info (state c))).
    rewrite Serialize_render, Split_render.
    change (PendingOffsets (Serialize (Info (state c))))
      with (PendingOffsets (Info (state c))).
    split.
    + intros (k & Hk & Hp). apply elem_of_app in Hk as [Hk | Hk].
      * apply list_elem_of_fmap in Hk as (x & -> & Hx).
        apply range_elem_of in Hx.
        rewrite ParseInt_FormatInt in Hp by now apply Hrange.
        congruence.
      * apply list_elem_of_singleton in Hk as ->.
        rewrite ParseInt_empty in Hp. discriminate Hp.
    + intros Hv. exists (strconv.FormatInt v). split.
      * apply elem_of_app. left. apply list_elem_of_fmap.
        exists v. split; [reflexivity | now apply range_elem_of].
      * apply ParseInt_FormatInt. now apply Hrange.
  - unfold Deserialize in Ed.
    apply Deserialize_loop_result in Ed as (Hinfo & _ & _ & Hmem).
    change (Info (set_Info (state c) info)) with info.
    replace (Metadata info) with (Metadata (Info (state c)))
      by (rewrite Hinfo; reflexivity).
    rewrite Hmem, Hk. split; [intros Hv; now right|].
    intros [Hv | Hv]; [now apply not_elem_of_empty in Hv | exact Hv].
  - destruct Hside; contradiction.
Qed.

Lemma State_metadata_decodes_witness :
  let c := mkPartitionConsumer (Some (mkFakeStream None 0 0))
             (mkPartitionState (mkOffsetInfo 3 (Some {[12; 7]}) "") true)
             false ChanOpen ChanOpen in
  ∃ st, @State _ reverse_order (Some c) = Ok (st, Some c) ∧
  ∃ i', Deserialize (fresh_ledger 0 (Metadata (Info st))) = Ok i' ∧
        GoMap.keys (PendingOffsets i') = {[12; 7]}.
Proof.
  intros c.
  exists (set_Info (state c) (@Serialize reverse_order (Info (state c)))).
  assert (E : @State _ reverse_order (Some c)
              = Ok (set_Info (state c) (@Serialize reverse_order (Info (state c))),
                    Some c)) by reflexivity.
  split; [exact E|].
  apply (@State_metadata_decodes _ reverse_order c _ (Some c) 0 E).
  - left. reflexivity.
  - intros k Hk. change (2 ^ 63) with 9223372036854775808.
    apply elem_of_union in Hk as [Hk | Hk];
      apply elem_of_singleton in Hk; subst k; lia.
Defined.

(** ** Construction *)

(** X12: [newPartitionConsumer] returns a consumer or an error, never both
    and never neither.  The consumer it returns is not dirty and not
    closed, its two channels are open, and it holds the pending map and
    the metadata of the ledger it was given; the confirmed offset is the
    ledger's, or -1. *)
Theorem newPartitionConsumer_result {S M : Type} `{MapOrder}
    `{ConsumerManager M S}
    (manager : M) (topic : string) (partition defaultOffset : Z)
    (info : offsetInfo) :
  let r := (newPartitionConsumer manager topic partition info defaultOffset).2 in
  (∃ c : partitionConsumer S,
     r = (Some c, None) ∧
     Dirty (state c) = false ∧ closed c = false ∧
     dying c = ChanOpen ∧ dead c = ChanOpen ∧
     PendingOffsets (Info (state c)) = PendingOffsets info ∧
     Metadata (Info (state c)) = Metadata info ∧
     (Offset (Info (state c)) = Offset info ∨ Offset (Info (state c)) = -1)) ∨
  (∃ e, r = (None, Some e)).
Proof.
  unfold newPartitionConsumer.
  destruct (ConsumePartition manager topic partition (NextOffset info defaultOffset))
    as [m1 [p1 e1]].
  case_bool_decide.
  - destruct (ConsumePartition m1 topic partition defaultOffset) as [m2 [p2 e2]].
    destruct e2 as [e|]; simpl; [right; now exists e|].
    left. eexists. split; [reflexivity|]. simpl. repeat split. now right.
  - destruct e1 as [e|]; simpl; [right; now exists e|].
    left. eexists. split; [reflexivity|]. simpl. repeat split. now left.
Qed.

(** X13: when the stream provider answers the first request with
    [ErrOffsetOutOfRange], [newPartitionConsumer] asks once more, at the
    default offset, and the outcome is that of the second request.  A
    consumer built this way holds the ledger with the confirmed offset
    reset to -1, so [NextOffset] of its ledger is the fallback whatever is
    pending. *)
Theorem newPartitionConsumer_out_of_range {S M : Type} `{MapOrder}
    `{ConsumerManager M S}
    (manager m1 m2 : M) (topic : string) (partition defaultOffset : Z)
    (info : offsetInfo) (p1 p2 : option S) (e2 : error) :
  ConsumePartition manager topic partition (NextOffset info defaultOffset)
  = (m1, (p1, Some ErrOffsetOutOfRange)) →
  ConsumePartition m1 topic partition defaultOffset = (m2, (p2, e2)) →
  match e2 with
  | Some e =>
      newPartitionConsumer manager topic partition info defaultOffset
      = (m2, (None, Some e))
  | None =>
      ∃ c, newPartitionConsumer manager topic partition info defaultOffset
           = (m2, (Some c, None)) ∧
           pcm c = p2 ∧
           Info (state c) = set_Offset info (-1) ∧
           ∀ f, NextOffset (Info (state c)) f = f
  end.
Proof.
  intros E1 E2. unfold newPartitionConsumer. rewrite E1.
  rewrite bool_decide_eq_true_2 by reflexivity. rewrite E2.
  destruct e2 as [e|]; [reflexivity|].
  eexists. split; [reflexivity|]. simpl. repeat split.
Qed.

Lemma newPartitionConsumer_out_of_range_witness :
  let info := mkOffsetInfo 40 (Some {[42]}) "" in
  let stream := mkFakeStream None 0 0 in
  ∃ c, @newPartitionConsumer _ elements_order _ fake_manager_ops
         [(None, Some ErrOffsetOutOfRange); (Some stream, None)]
         "topic" 0 info (-2) = ([], (Some c, None)) ∧
       Info (state c) = mkOffsetInfo (-1) (Some {[42]}) "" ∧
       @NextOffset elements_order (Info (state c)) (-2) = -2.
Proof.
  intros info stream.
  destruct (@newPartitionConsumer_out_of_range _ _ elements_order fake_manager_ops
              [(None, Some ErrOffsetOutOfRange); (Some stream, None)]
              [(Some stream, None)] [] "topic" 0 (-2) info None (Some stream) None
              eq_refl eq_refl) as (c & E & _ & Hi & Hn).
  exists c. split; [exact E|]. split; [exact Hi | apply Hn].
Defined.

(** X14: an error other than [ErrOffsetOutOfRange] from the first request
    ends the construction: there is no retry (the manager is as the first
    request left it), no consumer, and the error is returned as it came. *)
Theorem newPartitionConsumer_fatal {S M : Type} `{MapOrder}
    `{ConsumerManager M S}
    (manager m1 : M) (topic : string) (partition defaultOffset : Z)
    (info : offsetInfo) (p1 : option S) (e : error_value) :
  ConsumePartition manager topic partition (NextOffset info defaultOffset)
  = (m1, (p1, Some e)) →
  e ≠ ErrOffsetOutOfRange →
  newPartitionConsumer manager topic partition info defaultOffset
  = (m1, (@None (partitionConsumer S), Some e)).
Proof.
  intros E1 He. unfold newPartitionConsumer. rewrite E1.
  rewrite bool_decide_eq_false_2 by congruence. reflexivity.
Qed.

Lemma newPartitionConsumer_fatal_witness :
  @newPartitionConsumer fake_stream elements_order _ fake_manager_ops
    [(None, Some (ErrOther "no broker")); (Some (mkFakeStream None 0 0), None)]
    "topic" 0 (mkOffsetInfo 40 (Some ∅) "") (-2)
  = ([(Some (mkFakeStream None 0 0), None)],
     (None, Some (ErrOther "no broker"))).
Proof.
  apply (@newPartitionConsumer_fatal _ _ elements_order fake_manager_ops
           _ _ "topic" 0 (-2) _ None (ErrOther "no broker")).
  - reflexivity.
  - discriminate.
Defined.

(** ** Close on reachable consumers *)

Lemma call_step_closable {S : Type} `{PartitionStream S}
    (c c' : partitionConsumer S) :
  closable c → call_step c c' → closable c'.
Proof.
  intros [Hp Hd] Hstep. destruct Hstep as
    [order c st c' E | c o md c' E | c o c' E | c o c' E | c o c' E | c o c' E
    | c e c' E | c c' E].
  - apply State_cases in E
      as [(_ & _ & E) | [(_ & _ & info & _ & _ & E) | (_ & _ & _ & E)]];
      injection E as ->; split; assumption.
  - unfold MarkOffset in E. destruct (_ <? _) in E;
      injection E as <-; split; assumption.
  - unfold MarkCommitted in E. destruct (_ || _) in E;
      injection E as <-; split; assumption.
  - unfold AddPendingOffset in E.
    destruct (PendingOffsets (Info (state c))); simpl in E; [|discriminate E].
    injection E as <-; split; assumption.
  - unfold RemovePendingOffset in E. injection E as <-; split; assumption.
  - unfold SetOffset in E. destruct (pcm c) as [p|] eqn:Ep; [|discriminate E].
    injection E as <-. split; [discriminate | exact Hd].
  - unfold Close in E. destruct (closed c) eqn:Ec.
    + destruct E as [E | E]; [|discriminate E].
      injection E as _ Hcc. subst c'. split; [exact Hp|].
      rewrite Ec. discriminate.
    + destruct (pcm c) as [p|]; [|destruct E as [E | E]; discriminate E].
      destruct (pcm_Close p) as [err p']. simpl in E.
      destruct (dying c); [|destruct E as [E | E]; discriminate E].
      destruct (dead c); destruct E as [E | E]; try discriminate E;
        injection E as _ Hcc; subst c'; split; simpl; discriminate.
  - unfold Loop_return in E. destruct (dead c); [|discriminate E].
    injection E as <-. split; assumption.
Qed.

(** X15: [Close] never panics on a consumer in use.  Starting from a
    consumer [newPartitionConsumer] built with a stream, after any sequence
    of calls of its methods that returned (and of returns of the forwarding
    loop), [Close] returns or is parked until the loop has stopped; it
    neither dereferences nil nor closes [dying] twice. *)
Theorem Close_never_panics {S M : Type} `{PartitionStream S} `{MapOrder}
    `{ConsumerManager M S}
    (manager manager' : M) (topic : string) (partition defaultOffset : Z)
    (info : offsetInfo) (c c' : partitionConsumer S) :
  newPartitionConsumer manager topic partition info defaultOffset
  = (manager', (Some c, None)) →
  pcm c ≠ None →
  rtc call_step c c' →
  ∃ e c'', Close (Some c') = Ok (e, Some c'') ∨
           Close (Some c') = Parked (e, Some c'').
Proof.
  intros Hnew Hpcm Hsteps.
  assert (Hc : closable c).
  { split; [exact Hpcm|]. intros _.
    unfold newPartitionConsumer in Hnew.
    destruct (ConsumePartition manager topic partition
                (NextOffset info defaultOffset)) as [m1 [p1 e1]].
    case_bool_decide.
    - destruct (ConsumePartition m1 topic partition defaultOffset) as [m2 [p2 e2]].
      destruct e2; [discriminate Hnew|]. injection Hnew as _ <-. reflexivity.
    - destruct e1; [discriminate Hnew|]. injection Hnew as _ <-. reflexivity. }
  assert (Hc' : closable c').
  { clear Hnew Hpcm. induction Hsteps as [c | c c1 c' Hstep _ IH]; [exact Hc|].
    apply IH. now apply (call_step_closable c c1). }
  destruct Hc' as [Hp Hd]. unfold Close.
  destruct (closed c') eqn:Ec; [eexists; eexists; left; reflexivity|].
  destruct (pcm c') as [p|]; [|contradiction].
  destruct (pcm_Close p) as [err p']. simpl. rewrite (Hd eq_refl).
  destruct (dead c'); eexists; eexists; [right | left]; reflexivity.
Qed.

Lemma Close_never_panics_witness :
  let info := mkOffsetInfo 40 (Some ∅) "" in
  let stream := mkFakeStream None 0 0 in
  let c := mkPartitionConsumer (Some stream) (mkPartitionState info false)
             false ChanOpen ChanOpen in
  let c' := mkPartitionConsumer (Some stream)
              (mkPartitionState (mkOffsetInfo 41 (Some ∅) "") true)
              false ChanOpen ChanOpen in
  MarkOffset (Some c) 41 "" = Ok (Some c') ∧
  ∃ e c'', Close (Some c') = Ok (e, Some c'') ∨
           Close (Some c') = Parked (e, Some c'').
Proof.
  intros info stream c c'.
  assert (E : MarkOffset (Some c) 41 "" = Ok (Some c')) by reflexivity.
  split; [exact E|].
  apply (@Close_never_panics _ _ fake_stream_ops elements_order fake_manager_ops
           [(Some stream, None)] [] "topic" 0 0 info c c').
  - reflexivity.
  - discriminate.
  - apply rtc_once. apply (step_MarkOffset c 41 "" c' E).
Defined.

(** * Properties of the partition registry *)

Lemma foldl_delete_lookup {V : Type} (keys : list topicPartition) :
  ∀ (m : gmap topicPartition V) (tp : topicPartition),
    foldl (fun m tp => delete tp m) m keys !! tp
    = if bool_decide (tp ∈ keys) then None else m !! tp.
Proof.
  induction keys as [|k keys IH]; intros m tp; [reflexivity|].
  cbn [foldl]. rewrite IH.
  destruct (decide (tp = k)) as [-> | Hne].
  - rewrite lookup_delete_eq.
    rewrite (bool_decide_eq_true_2 (k ∈ k :: keys)) by left.
    now case_bool_decide.
  - rewrite lookup_delete_ne by congruence.
    rewrite (bool_decide_ext (tp ∈ k :: keys) (tp ∈ keys)); [reflexivity|].
    rewrite elem_of_cons. tauto.
Qed.

Lemma range_entries_elem_of {K V : Type} `{Countable K} `{!EntryOrder K V}
    (m : gmap K V) (k : K) (v : V) :
  (k, v) ∈ range_entries m ↔ m !! k = Some v.
Proof. rewrite (range_entries_perm m). apply elem_of_map_to_list. Qed.

Lemma range_entries_NoDup {K V : Type} `{Countable K} `{!EntryOrder K V} (m : gmap K V) :
  NoDup (range_entries m).*1.
Proof. rewrite (range_entries_perm m). apply NoDup_fst_map_to_list. Qed.

Lemma range_entries_keys {K V : Type} `{Countable K} `{!EntryOrder K V} (m : gmap K V) (k : K) :
  k ∈ (range_entries m).*1 ↔ is_Some (m !! k).
Proof.
  rewrite list_elem_of_fmap. split.
  - intros ([k' v] & -> & Hkv). apply range_entries_elem_of in Hkv. now exists v.
  - intros [v Hv]. exists (k, v). split; [reflexivity|].
    now apply range_entries_elem_of.
Qed.

(** X16: the registry is a map with nil for what it does not hold.
    [Fetch] after [Store] under the same key returns the stored pointer
    and under another key what was there before; [Fetch] on a new
    registry returns nil; [Clear] empties the registry, whatever the order
    of its loop, so every [Fetch] after it returns nil. *)
Theorem Fetch_Store_Clear {S : Type}
    `{!EntryOrder topicPartition (option (partitionConsumer S))}
    (m : gmap topicPartition (option (partitionConsumer S)))
    (topic topic' : string) (partition partition' : Z)
    (pc : option (partitionConsumer S)) :
  partitionMap.Fetch (partitionMap.Store m topic partition pc) topic partition = pc ∧
  ((topic', partition') ≠ (topic, partition) →
   partitionMap.Fetch (partitionMap.Store m topic partition pc) topic' partition'
   = partitionMap.Fetch m topic' partition') ∧
  partitionMap.Fetch (S:=S) partitionMap.newPartitionMap topic partition = None ∧
  partitionMap.Clear m = partitionMap.newPartitionMap ∧
  partitionMap.Fetch (partitionMap.Clear m) topic partition = None.
Proof.
  assert (Hclear : partitionMap.Clear m = ∅).
  { apply map_eq. intros tp. unfold partitionMap.Clear.
    rewrite foldl_delete_lookup, lookup_empty.
    case_bool_decide as Hin; [reflexivity|].
    destruct (m !! tp) as [v|] eqn:E; [|reflexivity].
    exfalso. apply Hin. apply range_entries_keys. now exists v. }
  unfold partitionMap.Fetch, partitionMap.Store, partitionMap.newPartitionMap.
  split; [now rewrite lookup_insert_eq|].
  split; [intros Hne; rewrite lookup_insert_ne by congruence; reflexivity|].
  split; [now rewrite lookup_empty|].
  split; [exact Hclear|].
  now rewrite Hclear, lookup_empty.
Qed.

Lemma Fetch_Store_Clear_witness :
  let c := mkPartitionConsumer (Some (mkFakeStream None 0 0)) zero_state
             false ChanOpen ChanOpen in
  let m := partitionMap.Store partitionMap.newPartitionMap "a" 0 (Some c) in
  ("b", 0) ≠ ("a", 1) ∧
  partitionMap.Fetch (partitionMap.Store m "a" 1 None) "b" 0
  = partitionMap.Fetch m "b" 0.
Proof.
  intros c m.
  assert (Hne : ("b", 0) ≠ ("a", 1)) by discriminate.
  split; [exact Hne|].
  exact (proj1 (proj2 (@Fetch_Store_Clear _ (map_to_list_order _ _)
                         m "a" "b" 1 0 None)) Hne).
Defined.

(** [State] returns a snapshot for nil and for every consumer whose
    pending map is allocated. *)
Lemma State_allocated {S : Type} `{MapOrder} (pc : option (partitionConsumer S)) :
  allocated pc →
  ∃ st pc', State pc = Ok (st, pc') ∧ snapshot_of pc st ∧
            (Dirty st = true → ∃ c, pc = Some c ∧ Dirty (state c) = true).
Proof.
  intros Halloc. destruct pc as [c|].
  - specialize (Halloc c eq_refl).
    destruct (PendingOffsets (Info (state c))) as [s|] eqn:Hs; [|contradiction].
    clear Halloc. unfold State. rewrite len_zero_keys.
    case_bool_decide as Hmd.
    + eexists. eexists. split; [reflexivity|]. simpl. split.
      * split; [reflexivity|]. split; [reflexivity|]. reflexivity.
      * intros Hd. now exists c.
    + case_bool_decide as Hk.
      * destruct (Deserialize_loop_allocated
                    (strings.Split (Metadata (Info (state c))) ",")
                    (Info (state c)) s Hs) as (s' & E & Hmem).
        unfold Deserialize. rewrite E. simpl.
        eexists. eexists. split; [reflexivity|]. simpl. split.
        -- split; [reflexivity|]. split; [reflexivity|].
           rewrite Hs. simpl. intros v Hv. apply Hmem. now left.
        -- intros Hd. now exists c.
      * eexists. eexists. split; [reflexivity|]. simpl. split.
        -- split; [reflexivity|]. split; reflexivity.
        -- intros Hd. now exists c.
  - exists zero_state, None. split; [reflexivity|]. split; [reflexivity|].
    simpl. discriminate.
Qed.

Section Registry_facts.
Context {S : Type} `{MapOrder}.
Context `{!EntryOrder topicPartition (option (partitionConsumer S))}.

Lemma HasDirty_loop_spec
    (entries : list (topicPartition * option (partitionConsumer S))) :
  ∀ m0 : gmap topicPartition (option (partitionConsumer S)),
    (∀ tp pc, (tp, pc) ∈ entries → allocated pc ∧ is_Some (m0 !! tp)) →
    ∃ b m', partitionMap.HasDirty_loop entries m0 = Ok (b, m') ∧
            (b = true ↔ ∃ tp c, (tp, Some c) ∈ entries ∧ Dirty (state c) = true) ∧
            dom m' = dom m0.
Proof.
  induction entries as [|[tp pc] entries IH]; intros m0 Hall.
  - exists false, m0. split; [reflexivity|]. split; [|reflexivity].
    split; [discriminate|]. intros (tp & c & Hin & _). now apply elem_of_nil in Hin.
  - destruct (Hall tp pc ltac:(left)) as [Halloc Hsome].
    destruct (State_allocated pc Halloc) as (st & pc' & E & Hsnap & Hdirty).
    cbn [partitionMap.HasDirty_loop]. rewrite E. simpl.
    assert (Hdom : dom (<[tp := pc']> m0) = dom m0).
    { rewrite dom_insert_L. apply elem_of_dom in Hsome.
      apply set_eq. intros x. rewrite elem_of_union, elem_of_singleton.
      split; [intros [-> | Hx]; assumption | now right]. }
    destruct (Dirty st) eqn:Ed.
    + eexists. eexists. split; [reflexivity|]. split; [|exact Hdom].
      split; [|reflexivity]. intros _.
      destruct (Hdirty eq_refl) as (c & -> & Hc).
      exists tp, c. split; [left | exact Hc].
    + destruct (IH (<[tp := pc']> m0)) as (b & m' & E' & Hb & Hdom').
      { intros tp' pc'' Hin. destruct (Hall tp' pc'' ltac:(now right)) as [Ha Hs].
        split; [exact Ha|]. rewrite lookup_insert_is_Some'. now right. }
      exists b, m'. split; [exact E'|]. split; [|congruence].
      rewrite Hb. split.
      * intros (tp' & c & Hin & Hc). exists tp', c. split; [now right | exact Hc].
      * intros (tp' & c & Hin & Hc).
        apply elem_of_cons in Hin as [Heq | Hin]; [|now exists tp', c].
        injection Heq as -> <-. destruct Hsnap as [Hd _]. congruence.
Qed.

(** X17: when every consumer the registry holds has an allocated pending
    map, [HasDirty] returns, and it returns true exactly when some held
    consumer is dirty, whatever the order of the loop; nil entries count
    as not dirty, and the registry keeps its keys.  On an empty registry
    it returns false. *)
Theorem HasDirty_iff_some_dirty
    (m : gmap topicPartition (option (partitionConsumer S))) :
  (∀ tp pc, m !! tp = Some pc → allocated pc) →
  ∃ b m', partitionMap.HasDirty m = Ok (b, m') ∧
          (b = true ↔ ∃ tp c, m !! tp = Some (Some c) ∧ Dirty (state c) = true) ∧
          dom m' = dom m ∧
          (m = ∅ → b = false).
Proof.
  intros Hall.
  destruct (HasDirty_loop_spec (range_entries m) m) as (b & m' & E & Hb & Hdom).
  { intros tp pc Hin. apply range_entries_elem_of in Hin.
    split; [now apply (Hall tp) | now exists pc]. }
  exists b, m'. split; [exact E|].
  assert (Hb' : b = true ↔ ∃ tp c, m !! tp = Some (Some c) ∧ Dirty (state c) = true).
  { rewrite Hb. split; intros (tp & c & Hin & Hc); exists tp, c;
      (split; [|exact Hc]); now apply range_entries_elem_of. }
  split; [exact Hb'|]. split; [exact Hdom|].
  intros ->. destruct b; [|reflexivity].
  destruct (proj1 Hb' eq_refl) as (tp & c & Hin & _).
  rewrite lookup_empty in Hin. discriminate Hin.
Qed.

End Registry_facts.

Lemma HasDirty_iff_some_dirty_witness :
  let c := mkPartitionConsumer (Some (mkFakeStream None 0 0))
             (mkPartitionState (mkOffsetInfo 5 (Some ∅) "") true)
             false ChanOpen ChanOpen in
  let m := partitionMap.Store
             (partitionMap.Store partitionMap.newPartitionMap "a" 0 (Some c))
             "a" 1 None in
  (∀ tp pc, m !! tp = Some pc → allocated pc) ∧
  ∃ m', @partitionMap.HasDirty _ reverse_order (reverse_entry_order _ _) m
        = Ok (true, m').
Proof.
  intros c m.
  assert (Hall : ∀ tp pc, m !! tp = Some pc → allocated pc).
  { intros tp pc Hm.
    unfold m, partitionMap.Store, partitionMap.newPartitionMap in Hm.
    apply lookup_insert_Some in Hm as [[_ <-] | [_ Hm]]; [intros c' Hc'; discriminate Hc'|].
    apply lookup_insert_Some in Hm as [[_ <-] | [_ Hm]].
    - intros c' Hc'. injection Hc' as <-. discriminate.
    - rewrite lookup_empty in Hm. discriminate Hm. }
  split; [exact Hall|].
  destruct (@HasDirty_iff_some_dirty _ reverse_order (reverse_entry_order _ _) m Hall)
    as (b & m' & E & Hb & _).
  exists m'. rewrite E. do 2 f_equal. apply Hb.
  exists ("a", 0), c. split; [|reflexivity].
  unfold m, partitionMap.Store.
  rewrite lookup_insert_ne by discriminate. apply lookup_insert_eq.
Defined.

Section Registry_snapshot.
Context {S : Type} `{MapOrder}.
Context `{!EntryOrder topicPartition (option (partitionConsumer S))}.

(** X18: a mark shows at once.  When a held consumer takes a [MarkOffset]
    above its confirmed offset (through the pointer [Fetch] returns, so
    the entry changes with it), the next [HasDirty] returns true, provided
    the held consumers have allocated pending maps. *)
Theorem HasDirty_after_MarkOffset
    (m : gmap topicPartition (option (partitionConsumer S)))
    (topic : string) (partition offset : Z) (metadata : string)
    (c : partitionConsumer S) :
  (∀ tp pc, m !! tp = Some pc → allocated pc) →
  partitionMap.Fetch m topic partition = Some c →
  Offset (Info (state c)) < offset →
  ∃ c1 m',
    MarkOffset (partitionMap.Fetch m topic partition) offset metadata = Ok (Some c1) ∧
    partitionMap.HasDirty (partitionMap.Store m topic partition (Some c1))
    = Ok (true, m').
Proof.
  intros Hall Hfetch Hlt. rewrite Hfetch.
  assert (Hm : m !! (topic, partition) = Some (Some c)).
  { unfold partitionMap.Fetch in Hfetch.
    destruct (m !! (topic, partition)) as [pc|]; [now subst pc | discriminate Hfetch]. }
  assert (H1 : ∃ c1, MarkOffset (Some c) offset metadata = Ok (Some c1) ∧
                     Dirty (state c1) = true ∧
                     PendingOffsets (Info (state c1)) = PendingOffsets (Info (state c))).
  { unfold MarkOffset. rewrite (proj2 (Z.ltb_lt _ _) Hlt).
    eexists. split; [reflexivity|]. simpl.
    case_bool_decide; simpl; split; reflexivity. }
  destruct H1 as (c1 & E1 & Hd1 & Hp1).
  set (m1 := partitionMap.Store m topic partition (Some c1)).
  destruct (HasDirty_loop_spec (range_entries m1) m1) as (b & m' & E & Hb & _).
  { intros tp pc Hin. apply range_entries_elem_of in Hin.
    split; [|now exists pc].
    unfold m1, partitionMap.Store in Hin.
    apply lookup_insert_Some in Hin as [[_ <-] | [_ Hin]].
    - intros c' Hc'. injection Hc' as <-. rewrite Hp1.
      now apply (Hall _ _ Hm c).
    - now apply (Hall tp). }
  exists c1, m'. split; [exact E1|].
  unfold partitionMap.HasDirty. fold m1. rewrite E. do 2 f_equal.
  apply Hb. exists (topic, partition), c1. split; [|exact Hd1].
  apply range_entries_elem_of. unfold m1, partitionMap.Store.
  apply lookup_insert_eq.
Qed.

Lemma Snapshot_loop_spec
    (entries : list (topicPartition * option (partitionConsumer S))) :
  ∀ (m0 : gmap topicPartition (option (partitionConsumer S)))
    (snap0 : gmap topicPartition partitionState),
    NoDup entries.*1 →
    (∀ tp pc, (tp, pc) ∈ entries → allocated pc) →
    ∃ snap m', partitionMap.Snapshot_loop entries m0 snap0 = Ok (snap, m') ∧
               (∀ tp, tp ∉ entries.*1 → snap !! tp = snap0 !! tp) ∧
               (∀ tp pc, (tp, pc) ∈ entries →
                         ∃ st, snap !! tp = Some st ∧ snapshot_of pc st).
Proof.
  induction entries as [|[tp pc] entries IH]; intros m0 snap0 Hnd Hall.
  - exists snap0, m0. split; [reflexivity|]. split; [reflexivity|].
    intros tp pc Hin. now apply elem_of_nil in Hin.
  - apply NoDup_cons in Hnd as [Hfresh Hnd].
    destruct (State_allocated pc (Hall tp pc ltac:(left)))
      as (st & pc' & E & Hsnap & _).
    cbn [partitionMap.Snapshot_loop]. rewrite E. simpl.
    destruct (IH (<[tp := pc']> m0) (<[tp := st]> snap0) Hnd)
      as (snap & m' & E' & Hout & Hin).
    { intros tp' pc'' Hin. apply (Hall tp'). now right. }
    exists snap, m'. split; [exact E'|]. split.
    + intros tp' Hnot. rewrite Hout.
      * apply lookup_insert_ne. intros ->. apply Hnot. left.
      * intros Hin'. apply Hnot. now right.
    + intros tp' pc'' Hin'. apply elem_of_cons in Hin' as [Heq | Hin'].
      * injection Heq as -> ->. exists st. split; [|exact Hsnap].
        rewrite (Hout tp Hfresh). apply lookup_insert_eq.
      * now apply Hin.
Qed.

(** X19: when every consumer the registry holds has an allocated pending
    map, [Snapshot] returns a map with exactly the keys of the registry,
    whatever the order of the loop: the zero state under a key that holds
    nil, and under a key that holds a consumer a state with the dirty flag
    and the confirmed offset of that consumer and at least its pending
    offsets. *)
Theorem Snapshot_covers_registry
    (m : gmap topicPartition (option (partitionConsumer S))) :
  (∀ tp pc, m !! tp = Some pc → allocated pc) →
  ∃ snap m', partitionMap.Snapshot m = Ok (snap, m') ∧
             dom snap = dom m ∧
             ∀ tp pc, m !! tp = Some pc →
                      ∃ st, snap !! tp = Some st ∧ snapshot_of pc st.
Proof.
  intros Hall.
  destruct (Snapshot_loop_spec (range_entries m) m ∅ (range_entries_NoDup m))
    as (snap & m' & E & Hout & Hin).
  { intros tp pc Hin. apply range_entries_elem_of in Hin. now apply (Hall tp). }
  exists snap, m'. split; [exact E|]. split.
  - apply set_eq. intros tp. rewrite !elem_of_dom. split.
    + intros Hs. destruct (decide (tp ∈ (range_entries m).*1)) as [Hk | Hk].
      * now apply range_entries_keys.
      * rewrite (Hout tp Hk), lookup_empty in Hs. now destruct Hs.
    + intros [pc Hpc]. apply range_entries_elem_of in Hpc.
      destruct (Hin tp pc Hpc) as (st & Hst & _). now exists st.
  - intros tp pc Hpc. apply Hin. now apply range_entries_elem_of.
Qed.

End Registry_snapshot.

Lemma singleton_registry_allocated
    (c : partitionConsumer fake_stream) (topic : string) (partition : Z) :
  PendingOffsets (Info (state c)) ≠ None →
  ∀ tp pc,
    partitionMap.Store partitionMap.newPartitionMap topic partition (Some c) !! tp
    = Some pc →
    allocated pc.
Proof.
  intros Hc tp pc Hm.
  unfold partitionMap.Store, partitionMap.newPartitionMap in Hm.
  apply lookup_insert_Some in Hm as [[_ <-] | [_ Hm]].
  - intros c' Hc'. injection Hc' as <-. exact Hc.
  - rewrite lookup_empty in Hm. discriminate Hm.
Qed.

Lemma HasDirty_after_MarkOffset_witness :
  let c := mkPartitionConsumer (Some (mkFakeStream None 0 0))
             (mkPartitionState (mkOffsetInfo 5 (Some ∅) "") false)
             false ChanOpen ChanOpen in
  let m := partitionMap.Store partitionMap.newPartitionMap "a" 0 (Some c) in
  partitionMap.Fetch m "a" 0 = Some c ∧
  ∃ c1 m',
    MarkOffset (partitionMap.Fetch m "a" 0) 8 "" = Ok (Some c1) ∧
    @partitionMap.HasDirty _ elements_order (map_to_list_order _ _)
      (partitionMap.Store m "a" 0 (Some c1)) = Ok (true, m').
Proof.
  intros c m.
  assert (Hf : partitionMap.Fetch m "a" 0 = Some c) by reflexivity.
  split; [exact Hf|].
  apply (@HasDirty_after_MarkOffset _ elements_order (map_to_list_order _ _)
           m "a" 0 8 "" c).
  - apply singleton_registry_allocated. discriminate.
  - exact Hf.
  - simpl. lia.
Defined.

Lemma Snapshot_covers_registry_witness :
  let c := mkPartitionConsumer (Some (mkFakeStream None 0 0))
             (mkPartitionState (mkOffsetInfo 5 (Some {[7]}) "") true)
             false ChanOpen ChanOpen in
  let m := partitionMap.Store partitionMap.newPartitionMap "a" 0 (Some c) in
  ∃ snap m',
    @partitionMap.Snapshot _ elements_order (map_to_list_order _ _) m
    = Ok (snap, m') ∧
    ∃ st, snap !! ("a", 0) = Some st ∧ Dirty st = true ∧ Offset (Info st) = 5.
Proof.
  intros c m.
  destruct (@Snapshot_covers_registry _ elements_order (map_to_list_order _ _) m)
    as (snap & m' & E & _ & Hin).
  { apply singleton_registry_allocated. discriminate. }
  exists snap, m'. split; [exact E|].
  destruct (Hin ("a", 0) (Some c)) as (st & Hst & Hd & Ho & _).
  { apply lookup_insert_eq. }
  exists st. split; [exact Hst|]. split; [exact Hd | exact Ho].
Defined.

(** ** Info *)

Lemma partitions_of_snoc (topic : string) (keys : list topicPartition)
    (tp : topicPartition) :
  partitions_of topic (keys ++ [tp])
  = partitions_of topic keys ++ (if decide (tp.1 = topic) then [tp.2] else []).
Proof.
  unfold partitions_of. rewrite filter_app, fmap_app. f_equal.
  rewrite filter_cons, filter_nil. now case_decide.
Qed.

Lemma partitions_of_elem_of (topic : string) (keys : list topicPartition) (p : Z) :
  p ∈ partitions_of topic keys ↔ (topic, p) ∈ keys.
Proof.
  unfold partitions_of. rewrite list_elem_of_fmap. split.
  - intros ([t q] & -> & Hin). apply list_elem_of_filter in Hin as [Ht Hin].
    simpl in Ht. now subst t.
  - intros Hin. exists (topic, p). split; [reflexivity|].
    apply list_elem_of_filter. now split.
Qed.

Lemma partitions_of_NoDup (topic : string) (keys : list topicPartition) :
  NoDup keys → NoDup (partitions_of topic keys).
Proof.
  intros Hnd. unfold partitions_of. apply NoDup_fmap_2_strong.
  - intros [t1 p1] [t2 p2] H1 H2 Heq.
    apply list_elem_of_filter in H1 as [H1 _].
    apply list_elem_of_filter in H2 as [H2 _].
    simpl in *. congruence.
  - now apply NoDup_filter.
Qed.

Lemma Info_collect_foldl (keys : list topicPartition) :
  ∀ (keys0 : list topicPartition) (info0 : gmap string (list Z)),
    (∀ topic, info0 !! topic = some_nonempty (partitions_of topic keys0)) →
    ∀ topic,
      foldl (fun info tp => <[tp.1 := default [] (info !! tp.1) ++ [tp.2]]> info)
            info0 keys !! topic
      = some_nonempty (partitions_of topic (keys0 ++ keys)).
Proof.
  induction keys as [|tp keys IH]; intros keys0 info0 Hinv topic.
  - rewrite app_nil_r. apply Hinv.
  - cbn [foldl].
    replace (keys0 ++ tp :: keys) with ((keys0 ++ [tp]) ++ keys)
      by (now rewrite <- app_assoc).
    apply IH. clear topic. intros topic.
    rewrite partitions_of_snoc. case_decide as Ht.
    + rewrite <- Ht, lookup_insert_eq, Hinv.
      destruct (partitions_of tp.1 keys0) as [|q l]; reflexivity.
    + rewrite lookup_insert_ne by exact Ht. now rewrite Hinv, app_nil_r.
Qed.

Lemma Info_sort_foldl (topics : list string) :
  ∀ (info : gmap string (list Z)) (topic : string),
    NoDup topics →
    foldl (fun info topic => <[topic := sort_Sort (default [] (info !! topic))]> info)
          info topics !! topic
    = if bool_decide (topic ∈ topics)
      then Some (sort_Sort (default [] (info !! topic)))
      else info !! topic.
Proof.
  induction topics as [|t topics IH]; intros info topic Hnd; [reflexivity|].
  apply NoDup_cons in Hnd as [Hfresh Hnd]. cbn [foldl]. rewrite IH by exact Hnd.
  destruct (decide (topic = t)) as [-> | Hne].
  - rewrite (bool_decide_eq_false_2 _ Hfresh).
    rewrite (bool_decide_eq_true_2 (t ∈ t :: topics)) by left.
    apply lookup_insert_eq.
  - rewrite lookup_insert_ne by congruence.
    rewrite (bool_decide_ext (topic ∈ t :: topics) (topic ∈ topics));
      [reflexivity|].
    rewrite elem_of_cons. tauto.
Qed.

Lemma ascending_of_sorted_NoDup (l : list Z) :
  StronglySorted Z.le l → NoDup l → ascending l.
Proof.
  unfold ascending. induction 1 as [|x l Hl IH Hall]; intros Hnd; [constructor|].
  apply NoDup_cons in Hnd as [Hfresh Hnd].
  constructor; [now apply IH|].
  rewrite Forall_forall in *. intros y Hy.
  specialize (Hall y Hy). assert (x ≠ y) by (intros ->; contradiction). lia.
Qed.

(** What [Info] holds under a topic: the sorted partition ids of the keys
    with that topic, or nothing when there is none. *)
Lemma Info_lookup {S : Type}
    `{!EntryOrder topicPartition (option (partitionConsumer S))}
    `{!EntryOrder string (list Z)}
    (m : gmap topicPartition (option (partitionConsumer S))) (topic : string) :
  partitionMap.Info m !! topic
  = sort_Sort <$> some_nonempty (partitions_of topic (range_entries m).*1).
Proof.
  set (keys := (range_entries m).*1).
  set (info := partitionMap.Info_collect keys).
  assert (Hinfo : info !! topic = some_nonempty (partitions_of topic keys)).
  { unfold info, partitionMap.Info_collect.
    apply (Info_collect_foldl keys [] ∅). intros t. now rewrite lookup_empty. }
  rewrite <- Hinfo. unfold partitionMap.Info. fold keys. fold info.
  rewrite Info_sort_foldl by apply range_entries_NoDup.
  case_bool_decide as Hin.
  - apply range_entries_keys in Hin as [l Hl]. now rewrite Hl.
  - destruct (info !! topic) as [l|] eqn:Hl; [|reflexivity].
    exfalso. apply Hin. apply range_entries_keys. now exists l.
Qed.

(** The sorted partition ids of a topic are ascending and are the ids the
    registry holds for the topic. *)
Lemma sorted_partitions {S : Type}
    `{!EntryOrder topicPartition (option (partitionConsumer S))}
    (m : gmap topicPartition (option (partitionConsumer S))) (topic : string) :
  ascending (sort_Sort (partitions_of topic (range_entries m).*1)) ∧
  ∀ p, p ∈ sort_Sort (partitions_of topic (range_entries m).*1)
       ↔ is_Some (m !! (topic, p)).
Proof.
  assert (Hperm : ∀ l, sort_Sort l ≡ₚ l) by (intros l; apply merge_sort_Permutation).
  split.
  - apply ascending_of_sorted_NoDup.
    + apply StronglySorted_merge_sort; apply _.
    + rewrite Hperm. apply partitions_of_NoDup, range_entries_NoDup.
  - intros p. rewrite Hperm, partitions_of_elem_of. apply range_entries_keys.
Qed.

(** X20: [Info] lists, for every topic with a held partition, exactly the
    held partition ids of that topic, ascending and without duplicates,
    whatever the orders of its two loops; a topic without a held partition
    has no entry.  Every list [Info] returns is thus a valid argument of
    [Diff]. *)
Theorem Info_sorted_partitions {S : Type}
    `{!EntryOrder topicPartition (option (partitionConsumer S))}
    `{!EntryOrder string (list Z)}
    (m : gmap topicPartition (option (partitionConsumer S))) (topic : string) :
  match partitionMap.Info m !! topic with
  | None => ∀ p, m !! (topic, p) = None
  | Some l =>
      l ≠ [] ∧ ascending l ∧ ∀ p, p ∈ l ↔ is_Some (m !! (topic, p))
  end.
Proof.
  rewrite Info_lookup.
  destruct (sorted_partitions m topic) as [Hasc Hmem].
  destruct (partitions_of topic (range_entries m).*1) as [|q l] eqn:Hp; simpl.
  - intros p. destruct (m !! (topic, p)) as [v|] eqn:Hv; [|reflexivity].
    exfalso. assert (Hin : p ∈ sort_Sort []) by (apply Hmem; now exists v).
    now apply elem_of_nil in Hin.
  - split; [|split; [exact Hasc | exact Hmem]].
    intros E. assert (Hq : q ∈ sort_Sort (q :: l)).
    { unfold sort_Sort. rewrite merge_sort_Permutation. left. }
    rewrite E in Hq. now apply elem_of_nil in Hq.
Qed.

(** X21: the lists of [Info] feed [Diff].  For the lists two registries
    hold under one topic, [Diff] returns exactly the partition ids the
    first registry holds for the topic and the second does not, in
    ascending order: the partitions to tear down when the assignment
    changes from the first to the second. *)
Theorem Diff_of_Info {S : Type}
    `{!EntryOrder topicPartition (option (partitionConsumer S))}
    `{!EntryOrder string (list Z)}
    (m1 m2 : gmap topicPartition (option (partitionConsumer S)))
    (topic : string) (l1 l2 : list Z) :
  partitionMap.Info m1 !! topic = Some l1 →
  partitionMap.Info m2 !! topic = Some l2 →
  ∃ r, Diff l1 l2 = Ok r ∧ ascending r ∧
       ∀ p, p ∈ r ↔ is_Some (m1 !! (topic, p)) ∧ m2 !! (topic, p) = None.
Proof.
  rewrite !Info_lookup. intros E1 E2.
  destruct (sorted_partitions m1 topic) as [Hasc1 Hmem1].
  destruct (sorted_partitions m2 topic) as [Hasc2 Hmem2].
  assert (Hl1 : l1 = sort_Sort (partitions_of topic (range_entries m1).*1)).
  { destruct (partitions_of topic (range_entries m1).*1);
      [discriminate E1 | now injection E1]. }
  assert (Hl2 : l2 = sort_Sort (partitions_of topic (range_entries m2).*1)).
  { destruct (partitions_of topic (range_entries m2).*1);
      [discriminate E2 | now injection E2]. }
  rewrite <- Hl1 in *. rewrite <- Hl2 in *. clear E1 E2 Hl1 Hl2.
  exists (filter (fun x => x ∉ l2) l1). unfold Diff.
  rewrite Diff_loop_filter by exact Hasc2.
  split; [reflexivity|]. split; [now apply ascending_filter|].
  intros p. rewrite list_elem_of_filter, Hmem1, Hmem2.
  rewrite <- eq_None_not_Some. tauto.
Qed.

Lemma Diff_of_Info_witness :
  let m1 : gmap topicPartition (option (partitionConsumer fake_stream)) :=
    partitionMap.Store
      (partitionMap.Store partitionMap.newPartitionMap "a" 4 None) "a" 2 None in
  let m2 : gmap topicPartition (option (partitionConsumer fake_stream)) :=
    partitionMap.Store partitionMap.newPartitionMap "a" 2 None in
  @partitionMap.Info _ (map_to_list_order _ _) (map_to_list_order _ _) m1 !! "a"
    = Some [2; 4] ∧
  @partitionMap.Info _ (map_to_list_order _ _) (map_to_list_order _ _) m2 !! "a"
    = Some [2] ∧
  ∃ r, Diff [2; 4] [2] = Ok r ∧ ∀ p, p ∈ r ↔ is_Some (m1 !! ("a", p)) ∧ m2 !! ("a", p) = None.
Proof.
  intros m1 m2.
  assert (E1 : @partitionMap.Info _ (map_to_list_order _ _) (map_to_list_order _ _)
                 m1 !! "a" = Some [2; 4]) by (vm_compute; reflexivity).
  assert (E2 : @partitionMap.Info _ (map_to_list_order _ _) (map_to_list_order _ _)
                 m2 !! "a" = Some [2]) by (vm_compute; reflexivity).
  split; [exact E1|]. split; [exact E2|].
  destruct (@Diff_of_Info _ (map_to_list_order _ _) (map_to_list_order _ _)
              m1 m2 "a" [2; 4] [2] E1 E2) as (r & E & _ & Hr).
  exists r. split; [exact E | exact Hr].
Defined.

(** ** The sort interface *)

Lemma Less_cons (x : Z) (l : list Z) (i j : nat) :
  Less (x :: l) (S i) (S j) = Less l i j.
Proof. reflexivity. Qed.

Lemma sorted_lookup_le (l : list Z) :
  StronglySorted Z.le l →
  ∀ (a b : nat) (ya yb : Z),
    (a < b)%nat → l !! a = Some ya → l !! b = Some yb → ya <= yb.
Proof.
  induction 1 as [|y l Hl IH Hall]; intros a b ya yb Hab Ha Hb.
  - rewrite lookup_nil in Ha. discriminate Ha.
  - destruct b as [|b]; [lia|]. simpl in Hb. destruct a as [|a]; simpl in Ha.
    + injection Ha as <-. rewrite Forall_forall in Hall. apply Hall.
      eapply list_elem_of_lookup_2. exact Hb.
    + apply (IH a b); [lia | exact Ha | exact Hb].
Qed.

Lemma sorted_of_Less (l : list Z) :
  (∀ i j, (i < j < length l)%nat → Less l j i = Ok false) →
  StronglySorted Z.le l.
Proof.
  induction l as [|x l IH]; intros HLess; [constructor|].
  constructor.
  - apply IH. intros i j Hij. rewrite <- (Less_cons x). apply HLess. simpl. lia.
  - rewrite Forall_forall. intros y Hy.
    apply list_elem_of_lookup_1 in Hy as [k Hk].
    pose proof (lookup_lt_Some _ _ _ Hk) as Hlen.
    specialize (HLess 0%nat (S k) ltac:(simpl; lia)).
    unfold Less, index in HLess. simpl in HLess. rewrite Hk in HLess.
    simpl in HLess. injection HLess as HLess. apply Z.ltb_ge in HLess. exact HLess.
Qed.

(** X22: the order [Less] gives is the order [sort.Sort] is modelled with.
    The sorted slice is a permutation of the slice in which [Less] never
    puts a later element before an earlier one, and it is the only such
    permutation: whatever algorithm [sort.Sort] runs over [Len], [Less] and
    [Swap], it ends with this slice. *)
Theorem sort_Sort_by_Less (p : list Z) :
  sort_Sort p ≡ₚ p ∧
  Len (sort_Sort p) = Len p ∧
  (∀ i j, (i < j < Len p)%nat → Less (sort_Sort p) j i = Ok false) ∧
  (∀ l, l ≡ₚ p →
        (∀ i j, (i < j < Len l)%nat → Less l j i = Ok false) →
        l = sort_Sort p).
Proof.
  assert (Hperm : sort_Sort p ≡ₚ p) by apply merge_sort_Permutation.
  assert (Hsorted : StronglySorted Z.le (sort_Sort p))
    by (apply StronglySorted_merge_sort; apply _).
  assert (Hlen : Len (sort_Sort p) = Len p)
    by (unfold Len; now rewrite Hperm).
  split; [exact Hperm|]. split; [exact Hlen|]. split.
  - intros i j Hij. unfold Len in *.
    destruct (lookup_lt_is_Some_2 (sort_Sort p) i) as [yi Hi]; [lia|].
    destruct (lookup_lt_is_Some_2 (sort_Sort p) j) as [yj Hj]; [lia|].
    unfold Less, index. rewrite Hj. simpl. rewrite Hi. simpl. f_equal.
    apply Z.ltb_ge. apply (sorted_lookup_le _ Hsorted i j); [lia | exact Hi | exact Hj].
  - intros l Hl HLess.
    apply (StronglySorted_unique Z.le); [now apply sorted_of_Less | exact Hsorted|].
    now rewrite Hl, Hperm.
Qed.

Lemma sort_Sort_by_Less_witness :
  let l : list Z := [1; 2] in
  l ≡ₚ [2; 1] ∧
  (∀ i j, (i < j < Len l)%nat → Less l j i = Ok false) ∧
  l = sort_Sort [2; 1].
Proof.
  intros l.
  assert (Hperm : l ≡ₚ [2; 1]) by apply perm_swap.
  assert (HLess : ∀ i j, (i < j < Len l)%nat → Less l j i = Ok false).
  { intros i j Hij. unfold Len in Hij. simpl in Hij.
    assert (i = 0%nat) as -> by lia. assert (j = 1%nat) as -> by lia.
    reflexivity. }
  exact (conj Hperm (conj HLess
    (proj2 (proj2 (proj2 (sort_Sort_by_Less [2; 1]))) l Hperm HLess))).
Defined.

(** X23: [Swap(i, j)] with both indices in range exchanges the elements
    at [i] and [j] and leaves every other element and the length as they
    are; with an index out of range it panics and nothing is written. *)
Theorem Swap_exchanges (p : list Z) (i j : nat) :
  ((i < Len p)%nat ∧ (j < Len p)%nat →
   ∃ p', Swap p i j = Ok p' ∧ Len p' = Len p ∧
         p' !! i = p !! j ∧ p' !! j = p !! i ∧
         ∀ k, k ≠ i → k ≠ j → p' !! k = p !! k) ∧
  (¬ ((i < Len p)%nat ∧ (j < Len p)%nat) → Swap p i j = Panic IndexOutOfRange).
Proof.
  unfold Len, Swap, index. split.
  - intros [Hi Hj].
    destruct (lookup_lt_is_Some_2 p i Hi) as [pi Hpi].
    destruct (lookup_lt_is_Some_2 p j Hj) as [pj Hpj].
    rewrite Hpj. simpl. rewrite Hpi. simpl.
    eexists. split; [reflexivity|]. split; [now rewrite !length_insert|].
    split; [|split].
    + destruct (decide (i = j)) as [-> | Hne].
      * rewrite list_lookup_insert_eq by (now rewrite length_insert). congruence.
      * rewrite list_lookup_insert_ne by congruence.
        rewrite list_lookup_insert_eq by exact Hi. congruence.
    + rewrite list_lookup_insert_eq by (now rewrite length_insert). congruence.
    + intros k Hki Hkj. now rewrite !list_lookup_insert_ne by congruence.
  - intros Hout.
    destruct (p !! j) as [pj|] eqn:Hpj; [|reflexivity]. simpl.
    destruct (p !! i) as [pi|] eqn:Hpi; [|reflexivity].
    exfalso. apply Hout. split; eapply lookup_lt_Some; eassumption.
Qed.

Lemma Swap_exchanges_witness :
  let p : list Z := [5; 6; 7] in
  ((0 < Len p)%nat ∧ (2 < Len p)%nat) ∧
  ∃ p', Swap p 0 2 = Ok p' ∧ p' !! 0%nat = Some 7 ∧ p' !! 2%nat = Some 5.
Proof.
  intros p.
  assert (Hin : (0 < Len p)%nat ∧ (2 < Len p)%nat) by (unfold Len; simpl; lia).
  split; [exact Hin|].
  destruct (proj1 (Swap_exchanges p 0 2) Hin) as (p' & E & _ & H0 & H2 & _).
  exists p'. split; [exact E|]. split; [exact H0 | exact H2].
Defined.
